(** * box-appauth: the token life cycle of the application client

    A shallow embedding of the [Token] object of the client's main module
    (construction, [set], [get], [refreshIfExpiring], [revoke]) together with
    the module-level refresh guard and the freshness timer, followed by the
    properties of the token state machine.

    JavaScript runs the module on one thread: every callback (a timer that
    elapses, an HTTP response that arrives, the handlers of a settled promise,
    a call made by a collaborator) runs to completion before the next one
    starts.  The embedding therefore is a deterministic transition function
    [step] over the events the run time can deliver, and a run is a list of
    such events. *)

From Stdlib Require Import ZArith String List Bool Lia.
From stdpp Require Import base list gmap strings.
Import ListNotations.
Local Open Scope string_scope.
Local Open Scope list_scope.
Local Open Scope Z_scope.

(** ** JavaScript values the module handles *)

Set Warnings "-register-all".

(** What [JSON.parse] can return. An object keeps its members in source order. *)
Inductive json : Type :=
| JNull
| JBool (b : bool)
| JNum (n : Z)
| JStr (s : string)
| JArr (items : list json)
| JObj (members : list (string * json)).

(** A value that may be [undefined] ([None]). *)
Definition jsval : Type := option json.

(** A JavaScript number as far as the module computes with it: an integer or
    [NaN].  Fractions and infinities are outside the embedding. *)
Inductive number : Type :=
| Num (z : Z)
| NaN.

Definition num_add (a b : number) : number :=
  match a, b with
  | Num x, Num y => Num (x + y)
  | _, _ => NaN
  end.

Definition num_sub (a b : number) : number :=
  match a, b with
  | Num x, Num y => Num (x - y)
  | _, _ => NaN
  end.

Definition num_mul (a b : number) : number :=
  match a, b with
  | Num x, Num y => Num (x * y)
  | _, _ => NaN
  end.

(** [a < b]: false as soon as one side is [NaN]. *)
Definition num_lt (a b : number) : bool :=
  match a, b with
  | Num x, Num y => x <? y
  | _, _ => false
  end.

(** Error values.  [Error] is what the module itself builds with
    [new Error(message)]; [Foreign] is an error object handed over by a
    dependency (the HTTP transport, the JWT library, a precondition of the
    backoff library, the run time's [TypeError]). *)
Inductive jserror : Type :=
| Error (message : string)
| Foreign (origin : string) (detail : string).

(** The result of a call that may throw. *)
Inductive outcome (A : Type) : Type :=
| Ok (a : A)
| Throws (e : jserror).
Arguments Ok {A} a.
Arguments Throws {A} e.

(** A settled promise. *)
Inductive promise (A : Type) : Type :=
| Resolved (a : A)
| Rejected (e : jserror).
Arguments Resolved {A} a.
Arguments Rejected {A} e.

(** [!v] is [negb (truthy v)]. *)
Definition truthy (v : jsval) : bool :=
  match v with
  | None => false
  | Some JNull => false
  | Some (JBool b) => b
  | Some (JNum n) => negb (n =? 0)
  | Some (JStr s) => negb (String.eqb s "")
  | Some (JArr _) => true
  | Some (JObj _) => true
  end.

(** Member lookup in a parsed object: of two members with one key the later
    one wins, as in [JSON.parse]. *)
Fixpoint lookup_member (key : string) (members : list (string * json)) : jsval :=
  match members with
  | [] => None
  | (k, v) :: rest =>
      match lookup_member key rest with
      | Some v' => Some v'
      | None => if String.eqb k key then Some v else None
      end
  end.

(** [o.key] for a parsed value [o]: reading a property of [null] throws a
    [TypeError]; the other values that are not objects have no such property. *)
Definition get_prop (key : string) (o : json) : outcome jsval :=
  match o with
  | JNull => Throws (Foreign "TypeError" "Cannot read property of null")
  | JObj members => Ok (lookup_member key members)
  | _ => Ok None
  end.

(** ** External dependencies

    The module calls into libraries and built-ins that are not part of it.
    They are taken as parameters. *)
Class Platform : Type := {
  (** [uuid.v4()]: the identifier returned by the call number [n]. *)
  uuid_v4 : nat -> string;
  (** [jwt.sign(payload, privateKey, claims)]. *)
  jwt_sign : gmap string json -> string -> gmap string json -> outcome string;
  (** [jwt.verify(signedJwt, publicKey)]: [None] when the assertion
      verifies, [Some e] when verification throws [e]. *)
  jwt_verify : string -> string -> option jserror;
  (** Numeric conversion of a string, array or object operand of [*]. *)
  ToNumber_other : json -> number
}.

(** Numeric conversion of the operand of [* 1000]. *)
Definition ToNumber `{Platform} (v : jsval) : number :=
  match v with
  | None => NaN
  | Some JNull => Num 0
  | Some (JBool true) => Num 1
  | Some (JBool false) => Num 0
  | Some (JNum n) => Num n
  | Some other => ToNumber_other other
  end.

(** ** Configuration: the arguments of the module function *)

Record Auth : Type := {
  clientId : string;
  clientSecret : string;
  authEndpoint : string
}.

(** [opts.backoff.callRetryMax] and [opts.minutesUntilTokenRefresh] are the
    two options the token state machine branches on; the delay options only
    shape the waiting time between two attempts, which the events carry. *)
Record Config : Type := {
  claims : gmap string json;
  publicKey : string;
  privateKey : string;
  auth : Auth;
  callRetryMax : Z;
  minutesUntilTokenRefresh : number
}.

(** ** The backoff object *)

(** Modelled from the spec: the [backoff] package is a dependency whose code is
    not part of the sources.  The spec bounds an exchange by [callRetryMax]
    attempts and lets the operation fail once that budget is used up; this is
    the package's [Backoff] object reduced to the two counters that decide it. *)
Record Backoff : Type := {
  backoffNumber_ : Z;
  maxNumberOfRetry_ : Z
}.

(** Modelled from the spec: the object [backoff.fibonacci(...)] returns, with
    no attempt made and no limit set. *)
Definition Backoff_fibonacci : Backoff :=
  {| backoffNumber_ := 0; maxNumberOfRetry_ := -1 |}.

(** Modelled from the spec: [failAfter(n)] sets the attempt budget and throws
    unless [n] is positive. *)
Definition Backoff_failAfter (n : Z) (b : Backoff) : outcome Backoff :=
  if 0 <? n
  then Ok {| backoffNumber_ := backoffNumber_ b; maxNumberOfRetry_ := n |}
  else Throws (Foreign "backoff" "Expected a maximum number of retry greater than 0").

(** Modelled from the spec: what a call of [backoff()] leads to, the ['fail']
    event or an armed timer. *)
Inductive backoff_signal : Type :=
| EmitFail
| Scheduled.

(** Modelled from the spec: [backoff()] emits ['fail'] and resets when the
    budget is used up, otherwise arms the timer whose expiry emits ['ready']. *)
Definition Backoff_backoff (b : Backoff) : backoff_signal * Backoff :=
  if backoffNumber_ b =? maxNumberOfRetry_ b
  then (EmitFail, {| backoffNumber_ := 0; maxNumberOfRetry_ := maxNumberOfRetry_ b |})
  else (Scheduled, b).

(** Modelled from the spec: after the ['ready'] listeners have run, the
    attempt counter goes up by one. *)
Definition Backoff_onBackoff (b : Backoff) : Backoff :=
  {| backoffNumber_ := backoffNumber_ b + 1; maxNumberOfRetry_ := maxNumberOfRetry_ b |}.

(** ** State *)

(** The three variables of a [Token] instance; all [undefined] at creation. *)
Record Token : Type := {
  accessToken : jsval;
  issuedAt : option Z;
  expiresAt : option number
}.

Definition Token_new : Token :=
  {| accessToken := None; issuedAt := None; expiresAt := None |}.

(** Who called [set()], which fixes the handlers attached to its promise:
    the module body ([Init]), [refreshIfExpiring] ([Refresh]) or a collaborator
    through [api.token] ([Direct]). *)
Inductive owner : Type :=
| Init
| Refresh
| Direct.

(** Where one [set()] call stands: waiting for the backoff timer; waiting for
    the response to the posted assertion; settled, with the handlers attached
    to the promise still to run; done, the handlers have run; or dead because
    a callback threw outside any [try] (its promise then never settles). *)
Inductive phase : Type :=
| TimerPending
| RequestPending (signedJwt : string)
| Settled (r : promise Token)
| Done (r : promise Token)
| Uncaught (e : jserror).

Record SetCall : Type := {
  fibonacciBackoff : Backoff;
  progress : phase;
  caller : owner
}.

(** The closure of one call of the module function. *)
Record System : Type := {
  token : Token;
  isRefreshing : bool;
  (** the [then] block of the module body has run: [api] is handed out and
      [refreshTimer] is armed *)
  refreshTimer : bool;
  payload : gmap string json;
  uuid_calls : nat;
  calls : list SetCall;
  revokes_in_flight : nat
}.

(** What a step lets the outside observe: the two kinds of HTTP posts (for
    the revoke post, the three values formatted into its body), the promises
    that settle, and exceptions nobody catches.  Calls of the logger are not
    recorded. *)
Inductive Obs : Type :=
| PostExchange (url client_id client_secret assertion : string)
| PostRevoke (url client_id client_secret : string) (tok : jsval)
| SetSettled (i : nat) (r : promise Token)
| RevokeSettled (r : promise string)
| ModuleSettled (r : promise unit)
| UncaughtException (i : nat) (e : jserror).

(** The response handed to a [request.post] callback.  A body is identified by
    what [JSON.parse] makes of it. *)
Inductive body : Type :=
| Unparseable (raw : string)
| Json (v : json).

Inductive reply : Type :=
| ReplyErr (err : jserror)
| ReplyBody (b : body).

(** What the run time can deliver: calls by a collaborator that holds [api],
    the freshness timer, the backoff timer of the [i]-th [set()] call, the
    response to its post, the handlers attached to its promise once it has
    settled, and the response to a revoke post.  [now] is what [Date.now()]
    returns while the callback runs. *)
Inductive Event : Type :=
| CallSet
| CallRefreshIfExpiring (now : Z)
| CallRevoke
| TimerFires (now : Z)
| BackoffTimer (i : nat)
| ExchangeReply (i : nat) (r : reply) (now : Z)
| PromiseHandlers (i : nat) (now : Z)
| RevokeReply (err : option jserror) (body : string).

(** ** The operations *)

Section Operations.
Context `{Platform} (cfg : Config).

Definition set_call (i : nat) (c : SetCall) (s : System) : System :=
  {| token := token s; isRefreshing := isRefreshing s;
     refreshTimer := refreshTimer s; payload := payload s;
     uuid_calls := uuid_calls s; calls := <[i := c]> (calls s);
     revokes_in_flight := revokes_in_flight s |}.

Definition push_call (c : SetCall) (s : System) : System :=
  {| token := token s; isRefreshing := isRefreshing s;
     refreshTimer := refreshTimer s; payload := payload s;
     uuid_calls := uuid_calls s; calls := calls s ++ [c];
     revokes_in_flight := revokes_in_flight s |}.

Definition set_isRefreshing (b : bool) (s : System) : System :=
  {| token := token s; isRefreshing := b;
     refreshTimer := refreshTimer s; payload := payload s;
     uuid_calls := uuid_calls s; calls := calls s;
     revokes_in_flight := revokes_in_flight s |}.

Definition set_refreshTimer (b : bool) (s : System) : System :=
  {| token := token s; isRefreshing := isRefreshing s;
     refreshTimer := b; payload := payload s;
     uuid_calls := uuid_calls s; calls := calls s;
     revokes_in_flight := revokes_in_flight s |}.

Definition set_token (t : Token) (s : System) : System :=
  {| token := t; isRefreshing := isRefreshing s;
     refreshTimer := refreshTimer s; payload := payload s;
     uuid_calls := uuid_calls s; calls := calls s;
     revokes_in_flight := revokes_in_flight s |}.

Definition set_revokes (n : nat) (s : System) : System :=
  {| token := token s; isRefreshing := isRefreshing s;
     refreshTimer := refreshTimer s; payload := payload s;
     uuid_calls := uuid_calls s; calls := calls s;
     revokes_in_flight := n |}.

Definition with_progress (p : phase) (c : SetCall) : SetCall :=
  {| fibonacciBackoff := fibonacciBackoff c; progress := p; caller := caller c |}.

Definition with_backoff (b : Backoff) (c : SetCall) : SetCall :=
  {| fibonacciBackoff := b; progress := progress c; caller := caller c |}.

(** [resolve(...)] or [reject(...)] inside [set]: the promise of call [i]
    settles with [r]; the handlers attached to it run in a callback of their
    own, [PromiseHandlers]. *)
Definition settle (i : nat) (c : SetCall) (r : promise Token) (s : System)
  : System * list Obs :=
  (set_call i (with_progress (Settled r) c) s, [SetSettled i r]).

(** [fibonacciBackoff.backoff()] with the ['fail'] listener of [set]:
    [reject(new Error('Unable to get token after 10 tries'))]. *)
Definition backoff (i : nat) (c : SetCall) (s : System) : System * list Obs :=
  match Backoff_backoff (fibonacciBackoff c) with
  | (EmitFail, b) =>
      settle i (with_backoff b c)
        (Rejected (Error "Unable to get token after 10 tries")) s
  | (Scheduled, b) =>
      (set_call i (with_progress TimerPending (with_backoff b c)) s, [])
  end.

(** [Token.set]: the executor of the promise.  [failAfter] throwing inside the
    executor rejects the promise; otherwise the first [backoff()] is issued. *)
Definition Token_set (o : owner) (s : System) : System * list Obs :=
  let i := length (calls s) in
  let c := {| fibonacciBackoff := Backoff_fibonacci;
              progress := TimerPending; caller := o |} in
  match Backoff_failAfter (callRetryMax cfg) Backoff_fibonacci with
  | Throws e => settle i c (Rejected e) (push_call c s)
  | Ok b => backoff i (with_backoff b c) (push_call c s)
  end.

(** [payload.jti = uuid.v4()]: the shared [payload] object gets the
    identifier of the next call of the generator. *)
Definition stamp_jti (s : System) : System :=
  {| token := token s; isRefreshing := isRefreshing s;
     refreshTimer := refreshTimer s;
     payload := <["jti" := JStr (uuid_v4 (uuid_calls s))]> (payload s);
     uuid_calls := S (uuid_calls s); calls := calls s;
     revokes_in_flight := revokes_in_flight s |}.

(** [jwt.sign(payload, privateKey, claims)] on the stamped payload. *)
Definition fresh_jwt (s : System) : outcome string :=
  jwt_sign (payload (stamp_jti s)) (privateKey cfg) (claims cfg).

(** The ['ready'] listener of [set], run when the backoff timer of call [i]
    elapses: a new [jti], a new signature, local verification, then the post.
    A throwing [jwt.sign] is outside the [try] and kills the callback.  The
    attempt counter goes up when the listener has returned. *)
Definition on_ready (i : nat) (c : SetCall) (s : System) : System * list Obs :=
  let s1 := stamp_jti s in
  match fresh_jwt s with
  | Throws e =>
      (set_call i (with_progress (Uncaught e) c) s1, [UncaughtException i e])
  | Ok signedJwt =>
      let c1 := with_backoff (Backoff_onBackoff (fibonacciBackoff c)) c in
      match jwt_verify signedJwt (publicKey cfg) with
      | Some e => settle i c1 (Rejected e) s1
      | None =>
          (set_call i (with_progress (RequestPending signedJwt) c1) s1,
           [PostExchange (authEndpoint (auth cfg)) (clientId (auth cfg))
              (clientSecret (auth cfg)) signedJwt])
      end
  end.

(** The time stamps of an accepted response:
    [issued_at = now], [expires_at = now + (expires_in * 1000)]. *)
Definition stamp (access_token expires_in : jsval) (now : Z) : Token :=
  {| accessToken := access_token;
     issuedAt := Some now;
     expiresAt := Some (num_add (Num now) (num_mul (ToNumber expires_in) (Num 1000))) |}.

(** The callback of the exchange post of call [i], run at time [now].  The
    promise resolves with the parsed object extended by the two stamps; the
    embedding keeps of it the three values the module stores. *)
Definition on_response (i : nat) (c : SetCall) (r : reply) (now : Z) (s : System)
  : System * list Obs :=
  match r with
  | ReplyErr _ => backoff i c s
  | ReplyBody (Unparseable _) => backoff i c s
  | ReplyBody (Json tokenObj) =>
      match get_prop "access_token" tokenObj with
      | Throws e =>
          (set_call i (with_progress (Uncaught e) c) s, [UncaughtException i e])
      | Ok access_token =>
          if negb (truthy access_token) then backoff i c s
          else
            let expires_in :=
              match get_prop "expires_in" tokenObj with
              | Ok v => v
              | Throws _ => None
              end in
            let t := stamp access_token expires_in now in
            settle i c (Resolved t) (set_token t s)
      end
  end.

(** [Token.get]. *)
Definition Token_get (s : System) : promise jsval :=
  Resolved (accessToken (token s)).

(** [(expiresAt - Date.now()) < (minutesUntilTokenRefresh * 60 * 1000)];
    an [undefined] [expiresAt] converts to [NaN]. *)
Definition doRefresh (now : Z) (s : System) : bool :=
  let expiry := match expiresAt (token s) with Some n => n | None => NaN end in
  num_lt (num_sub expiry (Num now))
         (num_mul (num_mul (minutesUntilTokenRefresh cfg) (Num 60)) (Num 1000)).

(** [Token.refreshIfExpiring], called at time [now]. *)
Definition Token_refreshIfExpiring (now : Z) (s : System) : System * list Obs :=
  if negb (isRefreshing s) && doRefresh now s
  then Token_set Refresh (set_isRefreshing true s)
  else (s, []).

(** The handlers the caller of [set()] attached to the promise, run at [now].
    - module body: [then] builds [api] (the collections are outside the
      embedding), assigns [refreshTimer] and calls it (which calls
      [refreshIfExpiring] and arms the timer), then resolves the module
      promise; [catch(reject)] rejects it;
    - [refreshIfExpiring]: [then] and [catch] only log, [finally] clears the
      guard whatever the result;
    - a collaborator's own handlers are not part of the module. *)
Definition handlers (o : owner) (r : promise Token) (now : Z) (s : System)
  : System * list Obs :=
  match o with
  | Init =>
      match r with
      | Resolved _ =>
          let (s1, o1) := Token_refreshIfExpiring now (set_refreshTimer true s) in
          (s1, o1 ++ [ModuleSettled (Resolved tt)])
      | Rejected e => (s, [ModuleSettled (Rejected e)])
      end
  | Refresh => (set_isRefreshing false s, [])
  | Direct => (s, [])
  end.

(** [Token.revoke]: the post; the callback runs in [Token_revoke_reply]. *)
Definition Token_revoke (s : System) : System * list Obs :=
  (set_revokes (S (revokes_in_flight s)) s,
   [PostRevoke "https://api.box.com/oauth2/revoke"
      (clientId (auth cfg)) (clientSecret (auth cfg)) (accessToken (token s))]).

(** The callback of the revoke post, [function(err, res, body)]:
    [reject(err)] when [err] is set, [resolve(body)] otherwise. *)
Definition Token_revoke_reply (err : option jserror) (body : string) (s : System)
  : System * list Obs :=
  match revokes_in_flight s with
  | O => (s, [])
  | S n =>
      (set_revokes n s,
       [RevokeSettled
          match err with
          | Some e => Rejected e
          | None => Resolved body
          end])
  end.

(** ** The event loop *)

(** One callback.  A collaborator holds [api] (and with it [api.token]) only
    once the [then] block of the module body has run, which is also when
    [refreshTimer] is armed; the timer callback calls [refreshIfExpiring] and
    arms itself again; a backoff timer, a response or the promise handlers
    belong to the [set()] call they were issued for. *)
Definition step (e : Event) (s : System) : System * list Obs :=
  match e with
  | CallSet =>
      if refreshTimer s then Token_set Direct s else (s, [])
  | CallRefreshIfExpiring now =>
      if refreshTimer s then Token_refreshIfExpiring now s else (s, [])
  | CallRevoke =>
      if refreshTimer s then Token_revoke s else (s, [])
  | TimerFires now =>
      if refreshTimer s then Token_refreshIfExpiring now s else (s, [])
  | BackoffTimer i =>
      match calls s !! i with
      | Some c =>
          match progress c with
          | TimerPending => on_ready i c s
          | _ => (s, [])
          end
      | None => (s, [])
      end
  | ExchangeReply i r now =>
      match calls s !! i with
      | Some c =>
          match progress c with
          | RequestPending _ => on_response i c r now s
          | _ => (s, [])
          end
      | None => (s, [])
      end
  | PromiseHandlers i now =>
      match calls s !! i with
      | Some c =>
          match progress c with
          | Settled r =>
              handlers (caller c) r now (set_call i (with_progress (Done r) c) s)
          | _ => (s, [])
          end
      | None => (s, [])
      end
  | RevokeReply err body => Token_revoke_reply err body s
  end.

(** A run: the callbacks in the order the run time delivers them, with all
    that was observed. *)
Fixpoint run (evs : list Event) (s : System) : System * list Obs :=
  match evs with
  | [] => (s, [])
  | e :: rest =>
      let (s1, o1) := step e s in
      let (s2, o2) := run rest s1 in
      (s2, o1 ++ o2)
  end.

(** The module body: [new Token()] and the first [set()]. *)
Definition boot (payload0 : gmap string json) : System * list Obs :=
  Token_set Init
    {| token := Token_new; isRefreshing := false; refreshTimer := false;
       payload := payload0; uuid_calls := O; calls := [];
       revokes_in_flight := O |}.

(** The states the module can be in. *)
Inductive reachable : System -> Prop :=
| reachable_boot (payload0 : gmap string json) :
    reachable (fst (boot payload0))
| reachable_step (e : Event) (s : System) :
    reachable s -> reachable (fst (step e s)).

(** ** Notions the properties are stated with *)

(** The assertions posted to the exchange endpoint, oldest first. *)
Definition exchange_posts (obs : list Obs) : list string :=
  omap (fun o => match o with
                 | PostExchange _ _ _ assertion => Some assertion
                 | _ => None
                 end) obs.

(** A refresh in flight: a [set()] call started by [refreshIfExpiring] whose
    [finally] handler has not run yet. *)
Definition refresh_in_flight (c : SetCall) : bool :=
  match caller c, progress c with
  | Refresh, Done _ => false
  | Refresh, _ => true
  | _, _ => false
  end.

Definition refreshes_in_flight (l : list SetCall) : nat :=
  length (List.filter refresh_in_flight l).

(** The guard and the calls agree: the guard is up exactly when a refresh is
    in flight, and then there is one. *)
Definition guard_inv (s : System) : Prop :=
  refreshes_in_flight (calls s) = if isRefreshing s then 1%nat else 0%nat.

(** How the promise of call [i] has settled, if it has. *)
Definition settled_result (i : nat) (s : System) : option (promise Token) :=
  match calls s !! i with
  | Some c =>
      match progress c with
      | Settled r => Some r
      | Done r => Some r
      | _ => None
      end
  | None => None
  end.

(** A response that sends [set] to the next backoff step: a transport error,
    a body that does not parse, a parsed body without a truthy
    [access_token]. *)
Definition failing (r : reply) : bool :=
  match r with
  | ReplyErr _ => true
  | ReplyBody (Unparseable _) => true
  | ReplyBody (Json v) =>
      match get_prop "access_token" v with
      | Ok a => negb (truthy a)
      | Throws _ => false
      end
  end.

(** A response that [set] accepts: a parsed body with a truthy
    [access_token]. *)
Definition accepted (r : reply) : bool :=
  match r with
  | ReplyBody (Json v) =>
      match get_prop "access_token" v with
      | Ok a => truthy a
      | Throws _ => false
      end
  | _ => false
  end.




(** The token is the one the module started with as long as no [set()] has
    resolved; afterwards it is the token some [set()] resolved with, and its
    access token is truthy. *)
Definition token_inv (s : System) : Prop :=
  (token s = Token_new /\ forall i t, settled_result i s <> Some (Resolved t)) \/
  (exists j, settled_result j s = Some (Resolved (token s)) /\
             truthy (accessToken (token s)) = true).

(** An operation on call [i] replaces that entry of [calls] by a call of the
    same caller that is not done, and leaves guard and timer alone. *)
Definition local_effect (i : nat) (c : SetCall) (s res : System) : Prop :=
  exists c', calls res = <[i := c']> (calls s) /\ caller c' = caller c /\
    (forall r, progress c' <> Done r) /\
    isRefreshing res = isRefreshing s /\ refreshTimer res = refreshTimer s.

(** An operation on call [j] resolves its promise only together with
    storing the token it resolves with. *)
Definition resolve_effect (j : nat) (s res : System) : Prop :=
  exists c', calls res = <[j := c']> (calls s) /\
    forall t, (progress c' = Settled (Resolved t) \/ progress c' = Done (Resolved t)) ->
      token res = t /\ truthy (accessToken t) = true.

(** A call as [set()] leaves it: at its first timer, or rejected at once. *)
Definition just_started (o : owner) (c : SetCall) : Prop :=
  caller c = o /\
  (progress c = TimerPending \/ exists e, progress c = Settled (Rejected e)).


(** The events of consecutive attempts of call [i], one per response. *)
Fixpoint attempts (i : nat) (replies : list (reply * Z)) : list Event :=
  match replies with
  | [] => []
  | (r, now) :: rest => BackoffTimer i :: ExchangeReply i r now :: attempts i rest
  end.

End Operations.

(** ** Responses of the exchange server *)

(** A body with [access_token] and [expires_in]. *)
Definition grant (tok : string) (ttl : Z) : reply :=
  ReplyBody (Json (JObj [("access_token", JStr tok); ("expires_in", JNum ttl)])).

(** A body with the single member [foo] set to the string [bar]. *)
Definition foo_bar : reply :=
  ReplyBody (Json (JObj [("foo", JStr "bar")])).


(** ** A concrete platform and configuration, for evaluation *)

Module Demo.

(** Identifiers that differ from call to call: [n] strokes. *)
Fixpoint tally (n : nat) : string :=
  match n with
  | O => "#"
  | S k => String.append "|" (tally k)
  end.

Definition sign (p : gmap string json) (key : string) (_ : gmap string json)
  : outcome string :=
  match p !! "jti" with
  | Some (JStr j) => Ok (String.append key (String.append "." j))
  | _ => Throws (Foreign "jsonwebtoken" "payload without jti")
  end.

Definition verify (signedJwt key : string) : option jserror :=
  if String.prefix key signedJwt then None
  else Some (Foreign "JsonWebTokenError" "invalid signature").

Definition platform : Platform :=
  {| uuid_v4 := tally;
     jwt_sign := sign;
     jwt_verify := verify;
     ToNumber_other := fun _ => NaN |}.

Definition box : Auth :=
  {| clientId := "id"; clientSecret := "secret";
     authEndpoint := "https://api.box.com/oauth2/token" |}.

Definition config (retries : Z) : Config :=
  {| claims := ∅; publicKey := "k"; privateKey := "k"; auth := box;
     callRetryMax := retries; minutesUntilTokenRefresh := Num 5 |}.

(** A configuration whose public key does not belong to the private key. *)
Definition mismatched (retries : Z) : Config :=
  {| claims := ∅; publicKey := "p"; privateKey := "k"; auth := box;
     callRetryMax := retries; minutesUntilTokenRefresh := Num 5 |}.

(** The module after its first [set()] got ["tok1"] for 3600 seconds at time
    1000 and the module promise resolved. *)
Definition granted_state : System :=
  fst (run (H := platform) (config 4)
         [BackoffTimer 0; ExchangeReply 0 (grant "tok1" 3600) 1000;
          PromiseHandlers 0 1001]
         (fst (boot (config 4) ∅))).


(** ... and with a refresh started by the timer 4999 ms before expiry. *)
Definition refreshing_state : System :=
  fst (run (H := platform) (config 4) [TimerFires 3596001] granted_state).


End Demo.

(** A platform whose [jwt.sign] throws whatever it is given, as it does for
    a private key it cannot read. *)
Definition unreadable_key_platform : Platform :=
  {| uuid_v4 := Demo.tally;
     jwt_sign := fun _ _ _ => Throws (Foreign "jsonwebtoken" "unreadable private key");
     jwt_verify := Demo.verify;
     ToNumber_other := fun _ => NaN |}.

(** ** Notions for the further properties of the token module *)

(** Call [i] is a refresh whose callback died on an exception. *)
Definition wedged (i : nat) (s : System) : Prop :=
  exists c e, calls s !! i = Some c /\ caller c = Refresh /\ progress c = Uncaught e.

(** The first [set()] was rejected with [e]: it is the only call there is,
    the timer is not armed and no revoke was posted. *)
Definition startup_failed (e : jserror) (s : System) : Prop :=
  refreshTimer s = false /\ revokes_in_flight s = O /\
  exists c, calls s = [c] /\ caller c = Init /\
            (progress c = Settled (Rejected e) \/ progress c = Done (Rejected e)).

(** Before the [then] block of the module body has run there is the first
    [set()] and nothing else; once it has run, the first [set()] has
    resolved. *)
Definition startup_inv (s : System) : Prop :=
  (refreshTimer s = false /\ revokes_in_flight s = O /\
   exists c, calls s = [c] /\ caller c = Init /\
             forall t, progress c <> Done (Resolved t)) \/
  (refreshTimer s = true /\ exists t, settled_result 0 s = Some (Resolved t)).

From stdpp Require pretty.

(** * The search collection

    [execute(args, cb)] of the search collection: it checks the members of
    [args] one after the other, collects the query parameters in the object
    [queryFields], writes them into the URL and issues the GET request.  A
    check that fails throws.  Strings are taken as sequences of ASCII
    characters. *)

Module Search.

(** The helpers of the call environment [env] that [execute] uses; their
    code is not part of the sources, so they are parameters, as is the
    decimal notation of a number. *)
Class Env : Type := {
  toValidLimitOrThrow : jsval -> outcome json;
  toValidOffsetOrThrow : jsval -> outcome json;
  toNumberOrThrow : json -> string -> outcome json;
  NumberToString : Z -> string
}.

(** The members of [args] that [execute] reads. *)
Record Args : Type := {
  limit : jsval;
  offset : jsval;
  fileExtensions : jsval;
  query : jsval;
  type : jsval;
  contentTypes : jsval;
  scope : jsval;
  sizeRange : jsval;
  ancestorFolderIds : jsval
}.

(** [queryFields]: the parameters in the order in which their keys were
    first assigned, which is the order [_.forIn] visits them in. *)
Definition Fields : Type := list (string * json).

(** [queryFields[key] = v]: a key that exists keeps its place. *)
Fixpoint set_field (key : string) (v : json) (q : Fields) : Fields :=
  match q with
  | [] => [(key, v)]
  | (k, w) :: rest =>
      if String.eqb k key then (k, v) :: rest else (k, w) :: set_field key v rest
  end.

Definition bind {A B : Type} (m : outcome A) (k : A -> outcome B) : outcome B :=
  match m with
  | Ok a => k a
  | Throws e => Throws e
  end.

Notation "x <- m ;; k" := (bind m (fun x => k))
  (at level 99, m at level 90, k at level 99, right associativity).

Section Execute.
Context `{Env}.

(** The string a value turns into under [+]: an array joins its elements
    with commas, [null] elements giving the empty string. *)
Fixpoint ToString (v : json) : string :=
  match v with
  | JNull => "null"
  | JBool true => "true"
  | JBool false => "false"
  | JNum n => NumberToString n
  | JStr s => s
  | JArr items =>
      (fix join (l : list json) : string :=
         match l with
         | [] => ""
         | x :: rest =>
             let elem := match x with JNull => "" | _ => ToString x end in
             match rest with
             | [] => elem
             | _ :: _ => String.append elem (String.append "," (join rest))
             end
         end) items
  | JObj _ => "[object Object]"
  end.

(** The same for a value that may be [undefined]. *)
Definition to_string (v : jsval) : string :=
  match v with
  | None => "undefined"
  | Some j => ToString j
  end.

(** White space that [trim] removes, among the characters of one byte. *)
Definition is_space (c : Ascii.ascii) : bool :=
  let n := Ascii.nat_of_ascii c in
  ((9 <=? n) && (n <=? 13) || (n =? 32))%nat.

Fixpoint trim_left (s : string) : string :=
  match s with
  | EmptyString => EmptyString
  | String c rest => if is_space c then trim_left rest else s
  end.

(** [s] without its trailing white space. *)
Fixpoint trim_right (s : string) : string :=
  match s with
  | EmptyString => EmptyString
  | String c rest =>
      match trim_right rest with
      | EmptyString => if is_space c then EmptyString else String c EmptyString
      | kept => String c kept
      end
  end.

(** [s.trim()]. *)
Definition trim (s : string) : string := trim_right (trim_left s).

Definition validContentTypes : list string :=
  ["name"; "description"; "file_content"; "comments"; "tags"].

Definition validScopes : list string :=
  ["user_content"; "enterprise_content"].

Definition validTypes : list string := ["file"; "folder"; "web_link"].

(** [list.indexOf(v) > -1]: [v] is a string of the list. *)
Definition listed (l : list string) (v : json) : bool :=
  match v with
  | JStr s => existsb (String.eqb s) l
  | _ => false
  end.

(** [if(args.limit)] and [if(args.offset)]: both write [queryFields.limit]. *)
Definition check_limit (args : Args) (q : Fields) : outcome Fields :=
  if truthy (limit args)
  then v <- toValidLimitOrThrow (limit args) ;; Ok (set_field "limit" v q)
  else Ok q.

Definition check_offset (args : Args) (q : Fields) : outcome Fields :=
  if truthy (offset args)
  then v <- toValidOffsetOrThrow (offset args) ;; Ok (set_field "limit" v q)
  else Ok q.

Definition check_fileExtensions (args : Args) (q : Fields) : Fields :=
  match fileExtensions args with
  | Some (JArr items) => set_field "file_extensions" (JArr items) q
  | _ => q
  end.

Definition check_query (args : Args) (q : Fields) : outcome Fields :=
  match query args with
  | Some (JStr s) =>
      if (1 <? String.length s)%nat
      then Ok (set_field "query" (JStr (trim s)) q)
      else Throws (Error (String.append
                            "search:execute#query is not a String. Received -> " s))
  | other =>
      Throws (Error (String.append
                       "search:execute#query is not a String. Received -> "
                       (to_string other)))
  end.

Definition check_type (args : Args) (q : Fields) : Fields :=
  match type args with
  | Some t => if truthy (Some t) && listed validTypes t
              then set_field "type" t q else q
  | None => q
  end.

Definition check_contentTypes (args : Args) (q : Fields) : outcome Fields :=
  match contentTypes args with
  | None => Ok q
  | Some (JArr items) =>
      if forallb (listed validContentTypes) items
      then Ok (set_field "content_types" (JArr items) q)
      else Throws (Error (String.append
             "search:execute#contentTypes contains an invalid type. Received -> "
             (ToString (JArr items))))
  | Some other =>
      Throws (Error (String.append
        "search:execute#contentTypes must be an array. Received -> "
        (ToString other)))
  end.

Definition check_scope (args : Args) (q : Fields) : outcome Fields :=
  match scope args with
  | None => Ok q
  | Some (JStr s) =>
      if negb (listed validScopes (JStr s))
      then Throws (Error (String.append
             "search:execute#scope is not valid. Must be one of "
             (String.append "user_content,enterprise_content"
                (String.append ". Received -> " s))))
      else Ok (set_field "scope" (JStr s) q)
  | Some other =>
      Throws (Error (String.append
        "search:execute#scope must be a string. Received " (ToString other)))
  end.

(** One bound of [args.sizeRange]: converted when the member is there. *)
Definition bound (members : list (string * json)) (name label : string)
  : outcome jsval :=
  match lookup_member name members with
  | None => Ok None
  | Some v => n <- toNumberOrThrow v label ;; Ok (Some n)
  end.

(** [b || '']. *)
Definition or_empty (b : jsval) : string :=
  match b with
  | Some v => if truthy b then ToString v else ""
  | None => ""
  end.

Definition check_sizeRange (args : Args) (q : Fields) : outcome Fields :=
  match sizeRange args with
  | None => Ok q
  | Some (JObj members) =>
      lowerBound <- bound members "lowerBound" "search:execute#sizeRange#lowerBound" ;;
      upperBound <- bound members "upperBound" "search:execute#sizeRange#upperBound" ;;
      if truthy lowerBound || truthy upperBound
      then Ok (set_field "size_range"
                 (JStr (String.append (or_empty lowerBound)
                          (String.append "," (or_empty upperBound)))) q)
      else Ok q
  | Some other =>
      Throws (Error (String.append
        "search:execute#sizeRange must be an Object. Received -> " (ToString other)))
  end.

(** The [forEach] over [args.ancestorFolderIds] from index [idx] on: every
    element is replaced in place by its conversion; the result is the array
    as the loop leaves it and the error that stopped it, if any. *)
Fixpoint convert_ids (idx : nat) (items : list json) : list json * option jserror :=
  match items with
  | [] => ([], None)
  | x :: rest =>
      match toNumberOrThrow x
              (String.append "search:execute#ancestorFolderIds#"
                 (NumberToString (Z.of_nat idx))) with
      | Throws e => (x :: rest, Some e)
      | Ok n =>
          let (rest', err) := convert_ids (S idx) rest in (n :: rest', err)
      end
  end.

(** The check of [args.ancestorFolderIds]: the parameters, and the array the
    caller holds afterwards. *)
Definition check_ancestorFolderIds (args : Args) (q : Fields)
  : outcome Fields * jsval :=
  match ancestorFolderIds args with
  | None => (Ok q, None)
  | Some (JArr items) =>
      match convert_ids 0 items with
      | (items', Some e) => (Throws e, Some (JArr items'))
      | (items', None) =>
          (Ok (set_field "ancestor_folder_ids" (JArr items') q), Some (JArr items'))
      end
  | Some other =>
      (Throws (Error (String.append
         "search:execute#ancestorFolderIds must be an Array. Received -> "
         (ToString other))), Some other)
  end.

(** [key + '=' + value]. *)
Definition pair_string (kv : string * json) : string :=
  String.append (fst kv) (String.append "=" (ToString (snd kv))).

(** The [_.forIn] loop that writes the parameters behind [url]. *)
Fixpoint append_fields (url : string) (index : nat) (q : Fields) : string :=
  match q with
  | [] => url
  | kv :: rest =>
      let url1 := if (0 <? index)%nat then String.append url "&" else url in
      append_fields (String.append url1 (pair_string kv)) (S index) rest
  end.

(** The checks up to [args.sizeRange], in the order of the source. *)
Definition front_checks (args : Args) : outcome Fields :=
  q1 <- check_limit args [] ;;
  q2 <- check_offset args q1 ;;
  q4 <- check_query args (check_fileExtensions args q2) ;;
  q6 <- check_contentTypes args (check_type args q4) ;;
  q7 <- check_scope args q6 ;;
  check_sizeRange args q7.

(** The parameters [execute] arrives at, and [args.ancestorFolderIds] as the
    call leaves it. *)
Definition collect (args : Args) : outcome Fields * jsval :=
  match front_checks args with
  | Throws e => (Throws e, ancestorFolderIds args)
  | Ok q => check_ancestorFolderIds args q
  end.

(** [execute]: the URL of the GET request it issues, or what it throws,
    together with [args.ancestorFolderIds] as the call leaves it. *)
Definition execute (args : Args) : outcome string * jsval :=
  match collect args with
  | (Throws e, ids) => (Throws e, ids)
  | (Ok q, ids) => (Ok (append_fields "https://api.box.com/2.0/search?" 0 q), ids)
  end.

End Execute.

(** ** Notions the properties of [execute] are stated with *)

(** The keys of [queryFields], in the order of the object. *)
Definition keys (q : Fields) : list string := map fst q.

(** [queryFields[key]]. *)
Fixpoint field (key : string) (q : Fields) : jsval :=
  match q with
  | [] => None
  | (k, v) :: rest => if String.eqb k key then Some v else field key rest
  end.

(** The keys [execute] assigns, in the order of their first assignment. *)
Definition parameter_order : list string :=
  ["limit"; "file_extensions"; "query"; "type"; "content_types"; "scope";
   "size_range"; "ancestor_folder_ids"].

(** Strings joined by [&]. *)
Fixpoint join_amp (l : list string) : string :=
  match l with
  | [] => ""
  | x :: rest =>
      match rest with
      | [] => x
      | _ :: _ => String.append x (String.append "&" (join_amp rest))
      end
  end.

(** [args] without its [type] member. *)
Definition without_type (args : Args) : Args :=
  {| limit := limit args; offset := offset args;
     fileExtensions := fileExtensions args; query := query args;
     type := None; contentTypes := contentTypes args; scope := scope args;
     sizeRange := sizeRange args; ancestorFolderIds := ancestorFolderIds args |}.

(** A string of white space only. *)
Fixpoint all_space (s : string) : bool :=
  match s with
  | EmptyString => true
  | String c rest => is_space c && all_space rest
  end.

(** [q'] is [q], possibly after an assignment to [queryFields[key]]. *)
Definition extends (key : string) (q q' : Fields) : Prop :=
  q' = q \/ exists v, q' = set_field key v q.

(** The label [execute] passes along with the element at index [idx]. *)
Definition id_label `{Env} (idx : nat) : string :=
  String.append "search:execute#ancestorFolderIds#" (NumberToString (Z.of_nat idx)).

(** A call environment for evaluation: limits and offsets are accepted as
    they are, numbers convert to themselves, the string of the digit 7 to
    the number 7, and nothing else converts. *)
Definition demo_number (v : json) (label : string) : outcome json :=
  match v with
  | JNum n => Ok (JNum n)
  | JStr "7" => Ok (JNum 7)
  | _ => Throws (Error (String.append label " is not a number"))
  end.

Definition demo_pass (v : jsval) : outcome json :=
  match v with
  | Some j => Ok j
  | None => Throws (Error "undefined")
  end.

Definition demo_env : Env :=
  {| toValidLimitOrThrow := demo_pass;
     toValidOffsetOrThrow := demo_pass;
     toNumberOrThrow := demo_number;
     NumberToString := pretty.pretty |}.

(** [args] with only [query] set. *)
Definition only_query (s : string) : Args :=
  {| limit := None; offset := None; fileExtensions := None;
     query := Some (JStr s); type := None; contentTypes := None;
     scope := None; sizeRange := None; ancestorFolderIds := None |}.

(** A call with every argument set. *)
Definition sample_args : Args :=
  {| limit := Some (JNum 5); offset := Some (JNum 20);
     fileExtensions := Some (JArr [JStr "pdf"; JStr "doc"]);
     query := Some (JStr " annual report ");
     type := Some (JStr "file");
     contentTypes := Some (JArr [JStr "name"; JStr "tags"]);
     scope := Some (JStr "user_content");
     sizeRange := Some (JObj [("lowerBound", JNum 0); ("upperBound", JStr "7")]);
     ancestorFolderIds := Some (JArr [JNum 1; JStr "7"]) |}.

(** A call for ["report"] of type [t]. *)
Definition of_type (t : json) : Args :=
  {| limit := None; offset := None; fileExtensions := None;
     query := Some (JStr "report"); type := Some t; contentTypes := None;
     scope := None; sizeRange := None; ancestorFolderIds := None |}.

(** A call for ["report"] below the folders [ids]. *)
Definition in_folders (ids : list json) : Args :=
  {| limit := None; offset := None; fileExtensions := None;
     query := Some (JStr "report"); type := None; contentTypes := None;
     scope := None; sizeRange := None; ancestorFolderIds := Some (JArr ids) |}.

End Search.

(** * Properties *)

Section Properties.
Context `{Platform} (cfg : Config).

(** ** Lists of calls *)

Lemma refreshes_snoc (l : list SetCall) (c : SetCall) :
  refreshes_in_flight (l ++ [c]) =
  (refreshes_in_flight l + (if refresh_in_flight c then 1 else 0))%nat.
Proof.
  unfold refreshes_in_flight. rewrite List.filter_app, length_app. simpl.
  destruct (refresh_in_flight c); reflexivity.
Qed.

Lemma refreshes_insert (l : list SetCall) (i : nat) (c c' : SetCall) :
  l !! i = Some c ->
  (refreshes_in_flight (<[i := c']> l) + (if refresh_in_flight c then 1 else 0) =
   refreshes_in_flight l + (if refresh_in_flight c' then 1 else 0))%nat.
Proof.
  unfold refreshes_in_flight. revert i.
  induction l as [|d l IH]; intros [|i] Hi; simpl in *; try discriminate.
  - injection Hi as ->.
    destruct (refresh_in_flight c), (refresh_in_flight c'); simpl; lia.
  - specialize (IH i Hi). destruct (refresh_in_flight d); simpl; lia.
Qed.

Lemma insert_snoc (l : list SetCall) (c c' : SetCall) :
  <[length l := c']> (l ++ [c]) = l ++ [c'].
Proof. induction l as [|d l IH]; simpl; [reflexivity | by rewrite IH]. Qed.


(** ** What each operation leaves alone *)

Lemma backoff_token i c s : token (fst (backoff i c s)) = token s.
Proof. unfold backoff. by destruct (Backoff_backoff _) as [[] b]. Qed.

Lemma Token_set_token o s : token (fst (Token_set cfg o s)) = token s.
Proof.
  unfold Token_set. destruct (Backoff_failAfter _ _); [|reflexivity].
  by rewrite backoff_token.
Qed.

Lemma on_ready_token i c s : token (fst (on_ready cfg i c s)) = token s.
Proof.
  unfold on_ready. destruct (fresh_jwt _ _); [|reflexivity].
  by destruct (jwt_verify _ _).
Qed.

Lemma refreshIfExpiring_token now s :
  token (fst (Token_refreshIfExpiring cfg now s)) = token s.
Proof.
  unfold Token_refreshIfExpiring. destruct (_ && _); [|reflexivity].
  by rewrite Token_set_token.
Qed.

Lemma handlers_token o r now s : token (fst (handlers cfg o r now s)) = token s.
Proof.
  destruct o, r; try reflexivity. unfold handlers.
  pose proof (refreshIfExpiring_token now (set_refreshTimer true s)) as Ht.
  by destruct (Token_refreshIfExpiring _ _ _).
Qed.

Lemma failing_backoff i c r now s :
  failing r = true -> on_response i c r now s = backoff i c s.
Proof.
  unfold failing, on_response. destruct r as [e|[raw|v]]; try reflexivity.
  destruct (get_prop _ v); [|discriminate]. by intros ->.
Qed.

(** The token changes in one place only: a response with a truthy
    [access_token]. *)
Lemma step_token e s :
  token (fst (step cfg e s)) = token s \/
  exists i r now, e = ExchangeReply i r now /\ accepted r = true.
Proof.
  destruct e as [| now | | now | i | i r now | i now | err body]; simpl.
  - left. destruct (refreshTimer s); [apply Token_set_token | reflexivity].
  - left. destruct (refreshTimer s); [apply refreshIfExpiring_token | reflexivity].
  - left. destruct (refreshTimer s); reflexivity.
  - left. destruct (refreshTimer s); [apply refreshIfExpiring_token | reflexivity].
  - left. destruct (calls s !! i) as [c|]; [|reflexivity].
    destruct (progress c); try reflexivity. apply on_ready_token.
  - destruct (accepted r) eqn:Hf; [right; eauto|].
    left. destruct (calls s !! i) as [c|]; [|reflexivity].
    destruct (progress c); try reflexivity.
    unfold on_response. unfold accepted in Hf.
    destruct r as [e|[raw|v]]; try apply backoff_token.
    destruct (get_prop "access_token" v) as [tok|e]; [|reflexivity].
    rewrite Hf. apply backoff_token.
  - left. destruct (calls s !! i) as [c|]; [|reflexivity].
    destruct (progress c); try reflexivity. by rewrite handlers_token.
  - left. unfold Token_revoke_reply. destruct (revokes_in_flight s); reflexivity.
Qed.

(** ** One step touches one call *)

Lemma pending_effect i c p s :
  (forall r, p <> Done r) -> local_effect i c s (set_call i (with_progress p c) s).
Proof. intros Hp. by exists (with_progress p c). Qed.

Lemma settle_effect i c r s : local_effect i c s (fst (settle i c r s)).
Proof. by apply pending_effect. Qed.

Lemma backoff_effect i c s : local_effect i c s (fst (backoff i c s)).
Proof.
  unfold backoff. destruct (Backoff_backoff _) as [[] b].
  - apply (settle_effect i (with_backoff b c)).
  - by apply (pending_effect i (with_backoff b c)).
Qed.

Lemma on_ready_effect i c s : local_effect i c s (fst (on_ready cfg i c s)).
Proof.
  unfold on_ready. destruct (fresh_jwt _ _) as [a|e].
  - destruct (jwt_verify _ _) as [e|]; cbn [fst].
    + match goal with |- local_effect _ _ _ (fst (settle _ ?c1 ?r ?s1)) =>
        exact (settle_effect i c1 r s1) end.
    + match goal with |- local_effect _ _ _ (set_call _ (with_progress ?p ?c1) ?s1) =>
        refine (pending_effect i c1 p s1 _); discriminate end.
  - cbn [fst].
    match goal with |- local_effect _ _ _ (set_call _ (with_progress ?p ?c1) ?s1) =>
      refine (pending_effect i c1 p s1 _); discriminate end.
Qed.

Lemma on_response_effect i c r now s :
  local_effect i c s (fst (on_response i c r now s)).
Proof.
  unfold on_response. destruct r as [e|[raw|v]]; try apply backoff_effect.
  destruct (get_prop "access_token" v) as [tok|e].
  - destruct (negb (truthy tok)); [apply backoff_effect|].
    match goal with |- local_effect _ _ _ (fst (settle _ ?c1 ?r ?s1)) =>
      exact (settle_effect i c1 r s1) end.
  - cbn [fst]. refine (pending_effect i c _ s _); discriminate.
Qed.

(** [set()] adds one call, at its first timer or rejected at once, and
    leaves guard and timer alone. *)
Lemma Token_set_calls o s :
  exists c', calls (fst (Token_set cfg o s)) = calls s ++ [c'] /\
             just_started o c' /\
             isRefreshing (fst (Token_set cfg o s)) = isRefreshing s /\
             refreshTimer (fst (Token_set cfg o s)) = refreshTimer s.
Proof.
  unfold Token_set, just_started.
  destruct (Backoff_failAfter _ _) as [b|e]; unfold backoff, settle;
    try destruct (Backoff_backoff _) as [[] b'];
    simpl; rewrite insert_snoc; eauto 10.
Qed.

Lemma refreshIfExpiring_calls now s :
  calls (fst (Token_refreshIfExpiring cfg now s)) = calls s \/
  exists c', calls (fst (Token_refreshIfExpiring cfg now s)) = calls s ++ [c'] /\
             just_started Refresh c'.
Proof.
  unfold Token_refreshIfExpiring. destruct (_ && _); [|by left].
  right. destruct (Token_set_calls Refresh (set_isRefreshing true s)) as (c' & Hc & Hj & _).
  eauto.
Qed.

Lemma handlers_calls o r now s :
  calls (fst (handlers cfg o r now s)) = calls s \/
  exists c', calls (fst (handlers cfg o r now s)) = calls s ++ [c'] /\
             just_started Refresh c'.
Proof.
  destruct o, r; try (by left). unfold handlers.
  pose proof (refreshIfExpiring_calls now (set_refreshTimer true s)) as Hc.
  by destruct (Token_refreshIfExpiring _ _ _).
Qed.

(** ** Settled promises stay settled *)

Lemma settled_result_ext s s' i :
  calls s' !! i = calls s !! i -> settled_result i s' = settled_result i s.
Proof. intros Hc. unfold settled_result. by rewrite Hc. Qed.

Lemma lookup_Token_set o s i :
  (i < length (calls s))%nat ->
  calls (fst (Token_set cfg o s)) !! i = calls s !! i.
Proof.
  intros Hlt. destruct (Token_set_calls o s) as (c' & -> & _).
  by rewrite lookup_app_l.
Qed.

Lemma lookup_refreshIfExpiring now s i :
  (i < length (calls s))%nat ->
  calls (fst (Token_refreshIfExpiring cfg now s)) !! i = calls s !! i.
Proof.
  intros Hlt. destruct (refreshIfExpiring_calls now s) as [-> | (c' & -> & _)];
    [reflexivity | by rewrite lookup_app_l].
Qed.

Lemma lookup_handlers o r now s i :
  (i < length (calls s))%nat ->
  calls (fst (handlers cfg o r now s)) !! i = calls s !! i.
Proof.
  intros Hlt. destruct (handlers_calls o r now s) as [-> | (c' & -> & _)];
    [reflexivity | by rewrite lookup_app_l].
Qed.

Lemma settled_result_stable e s i r :
  settled_result i s = Some r -> settled_result i (fst (step cfg e s)) = Some r.
Proof.
  intros Hr. rewrite <- Hr.
  assert (Hi : exists c, calls s !! i = Some c /\
                         (progress c = Settled r \/ progress c = Done r)).
  { unfold settled_result in Hr. destruct (calls s !! i) as [c|]; [|discriminate].
    exists c. split; [reflexivity|].
    destruct (progress c); try discriminate; injection Hr as ->; auto. }
  destruct Hi as (c & Hi & Hp). pose proof (lookup_lt_Some _ _ _ Hi) as Hlt.
  destruct e as [| now | | now | j | j r' now | j now | err body]; cbn [step].
  - destruct (refreshTimer s); [|reflexivity].
    by apply settled_result_ext, lookup_Token_set.
  - destruct (refreshTimer s); [|reflexivity].
    by apply settled_result_ext, lookup_refreshIfExpiring.
  - destruct (refreshTimer s); reflexivity.
  - destruct (refreshTimer s); [|reflexivity].
    by apply settled_result_ext, lookup_refreshIfExpiring.
  - destruct (calls s !! j) as [cj|] eqn:Hj; [|reflexivity].
    destruct (progress cj) eqn:Hpj; try reflexivity.
    destruct (on_ready_effect j cj s) as (c' & Hc & _).
    apply settled_result_ext. rewrite Hc. apply list_lookup_insert_ne.
    intros ->. rewrite Hi in Hj. injection Hj as ->. destruct Hp; congruence.
  - destruct (calls s !! j) as [cj|] eqn:Hj; [|reflexivity].
    destruct (progress cj) eqn:Hpj; try reflexivity.
    destruct (on_response_effect j cj r' now s) as (c' & Hc & _).
    apply settled_result_ext. rewrite Hc. apply list_lookup_insert_ne.
    intros ->. rewrite Hi in Hj. injection Hj as ->. destruct Hp; congruence.
  - destruct (calls s !! j) as [cj|] eqn:Hj; [|reflexivity].
    destruct (progress cj) as [| a | rj | rj | ej] eqn:Hpj; try reflexivity.
    unfold settled_result at 1.
    rewrite lookup_handlers by (cbn [calls set_call]; by rewrite length_insert).
    cbn [calls set_call].
    destruct (decide (j = i)) as [->|Hne].
    + rewrite list_lookup_insert_eq by exact Hlt.
      cbn [progress with_progress]. unfold settled_result.
      rewrite Hj, Hpj. reflexivity.
    + rewrite list_lookup_insert_ne by exact Hne. reflexivity.
  - unfold Token_revoke_reply. destruct (revokes_in_flight s); reflexivity.
Qed.

Lemma run_settled evs s i r :
  settled_result i s = Some r -> settled_result i (fst (run cfg evs s)) = Some r.
Proof.
  revert s. induction evs as [|e evs IH]; intros s Hr; simpl; [exact Hr|].
  pose proof (settled_result_stable e s i r Hr) as Hs.
  destruct (step cfg e s) as [s1 o1]. simpl in Hs.
  specialize (IH s1 Hs). destruct (run cfg evs s1) as [s2 o2]. exact IH.
Qed.

(** A settled call has no timer and no request left: their callbacks do
    nothing. *)
Lemma settled_ignores s i r :
  settled_result i s = Some r ->
  step cfg (BackoffTimer i) s = (s, []) /\
  forall r' now, step cfg (ExchangeReply i r' now) s = (s, []).
Proof.
  unfold settled_result. cbn [step].
  destruct (calls s !! i) as [c|]; [|discriminate].
  by destruct (progress c).
Qed.

(** ** The guard invariant *)

Lemma refresh_in_flight_done r c :
  refresh_in_flight (with_progress (Done r) c) = false.
Proof. unfold refresh_in_flight. simpl. by destruct (caller c). Qed.

Lemma refresh_in_flight_caller c :
  (forall r, progress c <> Done r) ->
  refresh_in_flight c = match caller c with Refresh => true | _ => false end.
Proof.
  intros Hc. unfold refresh_in_flight.
  destruct (caller c), (progress c) as [| a | r | r | e]; try reflexivity.
  by destruct (Hc r).
Qed.

(** Replacing a call that is not done by one of the same caller that is not
    done either keeps the number of refreshes in flight. *)
Lemma refreshes_replace (l : list SetCall) i c c' :
  l !! i = Some c -> caller c' = caller c ->
  (forall r, progress c <> Done r) -> (forall r, progress c' <> Done r) ->
  refreshes_in_flight (<[i := c']> l) = refreshes_in_flight l.
Proof.
  intros Hi Hcaller Hc Hc'. pose proof (refreshes_insert l i c c' Hi) as Hn.
  rewrite (refresh_in_flight_caller c Hc), (refresh_in_flight_caller c' Hc'), Hcaller in Hn.
  lia.
Qed.

Lemma local_effect_guard i c s res :
  calls s !! i = Some c -> (forall r, progress c <> Done r) ->
  local_effect i c s res -> guard_inv s -> guard_inv res.
Proof.
  intros Hi Hc (c' & Hcalls & Hcaller & Hc' & Hg & _). unfold guard_inv.
  by rewrite Hcalls, Hg, (refreshes_replace _ i c c').
Qed.

(** [set()] started by anyone but [refreshIfExpiring] keeps the invariant. *)
Lemma Token_set_guard o s :
  o <> Refresh -> guard_inv s -> guard_inv (fst (Token_set cfg o s)).
Proof.
  intros Ho. unfold guard_inv.
  destruct (Token_set_calls o s) as (c' & -> & [Hcaller _] & -> & _).
  rewrite refreshes_snoc. unfold refresh_in_flight. rewrite Hcaller.
  destruct o; try lia. by destruct Ho.
Qed.

(** [refreshIfExpiring] raises the guard before it calls [set()]. *)
Lemma Token_set_refresh_guard s :
  guard_inv s -> isRefreshing s = false ->
  guard_inv (fst (Token_set cfg Refresh (set_isRefreshing true s))) /\
  isRefreshing (fst (Token_set cfg Refresh (set_isRefreshing true s))) = true.
Proof.
  intros Hinv Hg. unfold guard_inv in *. rewrite Hg in Hinv.
  destruct (Token_set_calls Refresh (set_isRefreshing true s))
    as (c' & -> & [Hcaller Hp] & -> & _).
  cbn [calls isRefreshing set_isRefreshing]. split; [|reflexivity].
  rewrite refreshes_snoc, Hinv, refresh_in_flight_caller, Hcaller; [reflexivity|].
  intros r. destruct Hp as [-> | [e ->]]; discriminate.
Qed.

Lemma refreshIfExpiring_guard now s :
  guard_inv s -> guard_inv (fst (Token_refreshIfExpiring cfg now s)).
Proof.
  intros Hinv. unfold Token_refreshIfExpiring.
  destruct (isRefreshing s) eqn:Hg; simpl; [exact Hinv|].
  destruct (doRefresh _ _ _); [|exact Hinv].
  by apply Token_set_refresh_guard.
Qed.

(** The handlers of a settled call run once; those of a refresh lower the
    guard. *)
Lemma handlers_guard i c r now s :
  calls s !! i = Some c -> progress c = Settled r ->
  guard_inv s ->
  guard_inv (fst (handlers cfg (caller c) r now (set_call i (with_progress (Done r) c) s))).
Proof.
  intros Hi Hp Hinv. unfold guard_inv in Hinv.
  pose proof (refreshes_insert _ _ _ (with_progress (Done r) c) Hi) as Hn.
  rewrite refresh_in_flight_done, refresh_in_flight_caller in Hn
    by (intros r'; by rewrite Hp).
  assert (Hmid : caller c <> Refresh -> guard_inv (set_call i (with_progress (Done r) c) s)).
  { intros Hne. unfold guard_inv. cbn [calls isRefreshing set_call].
    destruct (caller c); try lia. by destruct Hne. }
  destruct (caller c) eqn:Hcaller; cbn [handlers].
  - destruct r as [t|e]; [|by apply Hmid].
    pose proof (refreshIfExpiring_guard now
                  (set_refreshTimer true (set_call i (with_progress (Done (Resolved t)) c) s)))
      as Hg.
    destruct (Token_refreshIfExpiring _ _ _) as [s1 o1]. apply Hg.
    by apply Hmid.
  - unfold guard_inv. cbn [fst calls isRefreshing set_isRefreshing set_call].
    destruct (isRefreshing s); lia.
  - by apply Hmid.
Qed.

Lemma step_guard e s : guard_inv s -> guard_inv (fst (step cfg e s)).
Proof.
  intros Hinv.
  destruct e as [| now | | now | i | i r now | i now | err body]; cbn [step].
  - destruct (refreshTimer s); [by apply Token_set_guard | exact Hinv].
  - destruct (refreshTimer s); [by apply refreshIfExpiring_guard | exact Hinv].
  - destruct (refreshTimer s); exact Hinv.
  - destruct (refreshTimer s); [by apply refreshIfExpiring_guard | exact Hinv].
  - destruct (calls s !! i) as [c|] eqn:Hi; [|exact Hinv].
    destruct (progress c) eqn:Hp; try exact Hinv.
    apply (local_effect_guard i c s); try done; [|apply on_ready_effect].
    intros r. by rewrite Hp.
  - destruct (calls s !! i) as [c|] eqn:Hi; [|exact Hinv].
    destruct (progress c) eqn:Hp; try exact Hinv.
    apply (local_effect_guard i c s); try done; [|apply on_response_effect].
    intros r'. by rewrite Hp.
  - destruct (calls s !! i) as [c|] eqn:Hi; [|exact Hinv].
    destruct (progress c) eqn:Hp; try exact Hinv. by apply handlers_guard.
  - unfold Token_revoke_reply. destruct (revokes_in_flight s); exact Hinv.
Qed.

Lemma reachable_guard s : reachable cfg s -> guard_inv s.
Proof.
  induction 1 as [p0 | e s _ IH].
  - apply Token_set_guard; [discriminate | reflexivity].
  - by apply step_guard.
Qed.

(** Only the [finally] handler of a refresh lowers the guard. *)
Lemma guard_lowered e s :
  isRefreshing s = true -> isRefreshing (fst (step cfg e s)) = false ->
  exists i c r now, e = PromiseHandlers i now /\ calls s !! i = Some c /\
                    caller c = Refresh /\ progress c = Settled r.
Proof.
  intros Hup.
  assert (Hidle : forall now s', isRefreshing s' = true ->
                    Token_refreshIfExpiring cfg now s' = (s', [])).
  { intros now s' Hs'. unfold Token_refreshIfExpiring. by rewrite Hs'. }
  destruct e as [| now | | now | i | i r now | i now | err body]; cbn [step].
  - destruct (refreshTimer s); [|cbn [fst]; congruence].
    destruct (Token_set_calls Direct s) as (c' & _ & _ & -> & _). congruence.
  - rewrite Hidle by exact Hup. destruct (refreshTimer s); cbn [fst]; congruence.
  - destruct (refreshTimer s); cbn [fst Token_revoke isRefreshing set_revokes]; congruence.
  - rewrite Hidle by exact Hup. destruct (refreshTimer s); cbn [fst]; congruence.
  - destruct (calls s !! i) as [c|] eqn:Hi; [|cbn [fst]; congruence].
    destruct (progress c) eqn:Hp; try (cbn [fst]; congruence).
    destruct (on_ready_effect i c s) as (c' & _ & _ & _ & -> & _). congruence.
  - destruct (calls s !! i) as [c|] eqn:Hi; [|cbn [fst]; congruence].
    destruct (progress c) eqn:Hp; try (cbn [fst]; congruence).
    destruct (on_response_effect i c r now s) as (c' & _ & _ & _ & -> & _). congruence.
  - destruct (calls s !! i) as [c|] eqn:Hi; [|cbn [fst]; congruence].
    destruct (progress c) as [| a | r | r | e] eqn:Hp; try (cbn [fst]; congruence).
    destruct (caller c) eqn:Hcaller; cbn [handlers].
    + destruct r as [t|e]; [|cbn [fst isRefreshing set_call]; congruence].
      rewrite Hidle by exact Hup. cbn [fst isRefreshing set_refreshTimer set_call].
      congruence.
    + intros _. by exists i, c, r, now.
    + cbn [fst isRefreshing set_call]. congruence.
  - unfold Token_revoke_reply.
    destruct (revokes_in_flight s); cbn [fst isRefreshing set_revokes]; congruence.
Qed.

(** ** Starting a [set()] call *)



(** ** The refresh guard *)

(** C4. In every state the module can reach, at most one refresh is in flight,
    and the guard [isRefreshing] is up exactly when there is one.  When
    [refreshIfExpiring] finds the token near expiry and the guard down, it
    raises the guard and calls [set()] once: one call is added, and it is the
    one refresh in flight.  When the promise of a refresh has settled, resolved
    or rejected, its [finally] handler lowers the guard, and nothing else
    does.  While the guard is up, [refreshIfExpiring], called directly or by
    the timer, changes nothing and posts nothing. *)
Theorem one_refresh_in_flight (s : System) :
  reachable cfg s ->
  (refreshes_in_flight (calls s) <= 1)%nat /\
  (isRefreshing s = true <-> refreshes_in_flight (calls s) = 1%nat) /\
  (forall now, isRefreshing s = false -> doRefresh cfg now s = true ->
     let res := Token_refreshIfExpiring cfg now s in
     res = Token_set cfg Refresh (set_isRefreshing true s) /\
     (exists c', calls (fst res) = calls s ++ [c'] /\ just_started Refresh c') /\
     isRefreshing (fst res) = true /\
     refreshes_in_flight (calls (fst res)) = 1%nat /\
     exchange_posts (snd res) = []) /\
  (forall i c r now,
     calls s !! i = Some c -> caller c = Refresh -> progress c = Settled r ->
     let s' := fst (step cfg (PromiseHandlers i now) s) in
     isRefreshing s' = false /\ refreshes_in_flight (calls s') = 0%nat) /\
  (forall e, isRefreshing s = true -> isRefreshing (fst (step cfg e s)) = false ->
     exists i c r now, e = PromiseHandlers i now /\ calls s !! i = Some c /\
                       caller c = Refresh /\ progress c = Settled r) /\
  (forall now, isRefreshing s = true ->
     Token_refreshIfExpiring cfg now s = (s, []) /\
     step cfg (TimerFires now) s = (s, []) /\
     step cfg (CallRefreshIfExpiring now) s = (s, [])).
Proof.
  intros Hreach. pose proof (reachable_guard s Hreach) as Hinv.
  assert (Hcount := Hinv). unfold guard_inv in Hcount.
  split; [destruct (isRefreshing s); lia|].
  split; [destruct (isRefreshing s); split; (congruence || lia)|].
  split; [|split; [|split; [exact (fun e => guard_lowered e s)|]]].
  - intros now Hdown Hnear res. subst res. unfold Token_refreshIfExpiring.
    rewrite Hdown, Hnear. cbn [negb andb].
    destruct (Token_set_refresh_guard s Hinv Hdown) as [Hinv' Hup].
    destruct (Token_set_calls Refresh (set_isRefreshing true s)) as (c' & Hc & Hj & _).
    split; [reflexivity|]. split; [eauto|]. split; [exact Hup|].
    unfold guard_inv in Hinv'. rewrite Hup in Hinv'. split; [exact Hinv'|].
    unfold Token_set, backoff, settle. by repeat case_match.
  - intros i c r now Hi Hcaller Hp s'. subst s'.
    pose proof (step_guard (PromiseHandlers i now) s Hinv) as Hinv'.
    unfold guard_inv in Hinv'. revert Hinv'.
    cbn [step]. rewrite Hi, Hp, Hcaller. cbn [handlers fst isRefreshing set_isRefreshing].
    auto.
  - intros now Hup. unfold step, Token_refreshIfExpiring. rewrite Hup.
    by destruct (refreshTimer s).
Qed.

(** ** The freshness threshold *)


(** ** One attempt *)


Lemma reachable_run evs s : reachable cfg s -> reachable cfg (fst (run cfg evs s)).
Proof.
  revert s. induction evs as [|e evs IH]; intros s Hs; [exact Hs|].
  cbn [run]. pose proof (reachable_step cfg e s Hs) as Hs1.
  destruct (step cfg e s) as [s1 o1]. specialize (IH s1 Hs1).
  by destruct (run cfg evs s1).
Qed.





(** ** Exhausting the attempt budget *)



(** ** Success after failed attempts *)



(** ** Time stamps *)


(** ** Non-retryable signing failure *)

(** C8. When the timer of a pending [set()] call elapses and local
    verification of the freshly signed assertion throws [e], the promise is
    rejected with [e] in that very step, nothing is posted, the token is left
    alone, and in every later state the call stays rejected, so that no timer
    or response of that call does anything any more.  A failing response, in
    contrast, sends a call with budget left back to its backoff timer. *)
Theorem verification_failure_aborts (i : nat) (c : SetCall) (s : System)
    (a : string) (e : jserror) :
  calls s !! i = Some c -> progress c = TimerPending ->
  fresh_jwt cfg s = Ok a -> jwt_verify a (publicKey cfg) = Some e ->
  let s' := fst (step cfg (BackoffTimer i) s) in
  snd (step cfg (BackoffTimer i) s) = [SetSettled i (Rejected e)] /\
  settled_result i s' = Some (Rejected e) /\
  token s' = token s /\
  (forall evs, let s'' := fst (run cfg evs s') in
     settled_result i s'' = Some (Rejected e) /\
     step cfg (BackoffTimer i) s'' = (s'', []) /\
     forall r now, step cfg (ExchangeReply i r now) s'' = (s'', [])) /\
  (forall c2 s2 a2 r now,
     calls s2 !! i = Some c2 -> progress c2 = RequestPending a2 ->
     failing r = true ->
     backoffNumber_ (fibonacciBackoff c2) <> maxNumberOfRetry_ (fibonacciBackoff c2) ->
     exists c3, calls (fst (step cfg (ExchangeReply i r now) s2)) !! i = Some c3 /\
                progress c3 = TimerPending).
Proof.
  intros Hi Hp Hs Hv s'. pose proof (lookup_lt_Some _ _ _ Hi) as Hlt.
  assert (Hstep : step cfg (BackoffTimer i) s =
            settle i (with_backoff (Backoff_onBackoff (fibonacciBackoff c)) c)
              (Rejected e) (stamp_jti s)).
  { cbn [step]. rewrite Hi, Hp. unfold on_ready. by rewrite Hs, Hv. }
  subst s'. rewrite Hstep.
  assert (Hres : settled_result i
                   (fst (settle i (with_backoff (Backoff_onBackoff (fibonacciBackoff c)) c)
                           (Rejected e) (stamp_jti s))) = Some (Rejected e)).
  { unfold settled_result. cbn [settle fst calls set_call stamp_jti].
    by rewrite list_lookup_insert_eq. }
  split; [reflexivity|]. split; [exact Hres|]. split; [reflexivity|]. split.
  - intros evs s''. subst s''.
    pose proof (run_settled evs _ i (Rejected e) Hres) as Hlater.
    split; [exact Hlater|]. by apply (settled_ignores _ i (Rejected e)).
  - intros c2 s2 a2 r now Hi2 Hp2 Hr Hk. pose proof (lookup_lt_Some _ _ _ Hi2) as Hlt2.
    cbn [step]. rewrite Hi2, Hp2, failing_backoff by exact Hr.
    unfold backoff, Backoff_backoff.
    assert ((backoffNumber_ (fibonacciBackoff c2) =? maxNumberOfRetry_ (fibonacciBackoff c2))
            = false) as -> by lia.
    cbn [fst calls set_call]. rewrite list_lookup_insert_eq by exact Hlt2. eauto.
Qed.

(** ** Fresh assertions *)





(** ** Revocation *)

Lemma set_revokes_id s : set_revokes (revokes_in_flight s) s = s.
Proof. by destruct s. Qed.

(** The timer does not look at the revoke requests in flight. *)
Lemma timer_set_revokes n now s :
  step cfg (TimerFires now) (set_revokes n s) =
  (set_revokes n (fst (step cfg (TimerFires now) s)),
   snd (step cfg (TimerFires now) s)).
Proof.
  cbn [step]. unfold Token_refreshIfExpiring, doRefresh, Token_set, backoff, settle.
  cbn [set_revokes refreshTimer isRefreshing token calls set_isRefreshing push_call].
  repeat case_match; simplify_eq; reflexivity.
Qed.

(** C10. [revoke()] leaves the local token state alone.  After the post and
    after its callback, with a transport error or without, the state differs
    from the one before at most in the count of revoke requests in flight:
    [accessToken], [issuedAt] and [expiresAt] are unchanged, there is no field
    that records a revocation, the guard and the [set()] calls are unchanged,
    [get()] resolves with the same access token, the timer stays armed and a
    timer tick does exactly what it would have done without the revoke. *)
Theorem revoke_changes_nothing (s : System) (err : option jserror) (body : string) :
  let s1 := fst (step cfg CallRevoke s) in
  let s2 := fst (step cfg (RevokeReply err body) s1) in
  (exists k1 k2, s1 = set_revokes k1 s /\ s2 = set_revokes k2 s) /\
  (token s1 = token s /\ token s2 = token s) /\
  (isRefreshing s2 = isRefreshing s /\ calls s2 = calls s) /\
  (Token_get s1 = Token_get s /\ Token_get s2 = Token_get s) /\
  refreshTimer s2 = refreshTimer s /\
  (forall now,
     snd (step cfg (TimerFires now) s2) = snd (step cfg (TimerFires now) s) /\
     token (fst (step cfg (TimerFires now) s2)) = token (fst (step cfg (TimerFires now) s)) /\
     calls (fst (step cfg (TimerFires now) s2)) = calls (fst (step cfg (TimerFires now) s)) /\
     isRefreshing (fst (step cfg (TimerFires now) s2)) =
       isRefreshing (fst (step cfg (TimerFires now) s))) /\
  (refreshTimer s = true ->
     run cfg [CallRevoke; RevokeReply err body] s =
     (s, [PostRevoke "https://api.box.com/oauth2/revoke"
            (clientId (auth cfg)) (clientSecret (auth cfg)) (accessToken (token s));
          RevokeSettled match err with Some e => Rejected e | None => Resolved body end])).
Proof.
  intros s1 s2.
  assert (Hs1 : exists k1, s1 = set_revokes k1 s).
  { subst s1. cbn [step]. destruct (refreshTimer s); cbn [fst Token_revoke]; eauto.
    exists (revokes_in_flight s). by rewrite set_revokes_id. }
  destruct Hs1 as [k1 Hs1].
  assert (Hs2 : exists k2, s2 = set_revokes k2 s).
  { subst s2. rewrite Hs1. cbn [step]. unfold Token_revoke_reply.
    cbn [revokes_in_flight set_revokes]. destruct k1; cbn [fst]; eauto. }
  destruct Hs2 as [k2 Hs2].
  split; [eauto|]. rewrite Hs1, Hs2.
  repeat split; try reflexivity.
  1-4: by rewrite timer_set_revokes.
  intros Harmed. cbn [run step]. rewrite Harmed. cbn [Token_revoke].
  unfold Token_revoke_reply. cbn [revokes_in_flight set_revokes fst snd app].
  by destruct s.
Qed.


(** ** Reading the token *)

Lemma backoff_resolve j c s : resolve_effect j s (fst (backoff j c s)).
Proof.
  unfold backoff, settle. destruct (Backoff_backoff _) as [[] b]; cbn [fst];
    eexists; (split; [reflexivity | by intros t [|]]).
Qed.

Lemma on_ready_resolve j c s : resolve_effect j s (fst (on_ready cfg j c s)).
Proof.
  unfold on_ready, settle. repeat case_match; cbn [fst];
    eexists; (split; [reflexivity | by intros t [|]]).
Qed.

Lemma on_response_resolve j c r now s :
  resolve_effect j s (fst (on_response j c r now s)).
Proof.
  unfold on_response. destruct r as [e|[raw|v]]; try apply backoff_resolve.
  destruct (get_prop "access_token" v) as [tok|e].
  - destruct (truthy tok) eqn:Htok; cbn [negb]; [|apply backoff_resolve].
    unfold settle. cbn [fst]. eexists. split; [reflexivity|].
    cbn [progress with_progress]. intros t [[= <-]|]; [|discriminate].
    by cbn [token set_call set_token accessToken stamp].
  - cbn [fst]. eexists. split; [reflexivity | by intros t [|]].
Qed.

Lemma settled_snoc s s' o c' i t :
  calls s' = calls s ++ [c'] -> just_started o c' ->
  settled_result i s' = Some (Resolved t) -> settled_result i s = Some (Resolved t).
Proof.
  intros Hc [_ Hp]. unfold settled_result. rewrite Hc.
  destruct (decide (i < length (calls s))%nat) as [Hlt|Hge].
  - by rewrite lookup_app_l.
  - rewrite lookup_app_r by lia.
    destruct (i - length (calls s))%nat as [|k]; simpl; [|by destruct k].
    destruct Hp as [-> | [e ->]]; discriminate.
Qed.

Lemma settled_advance s res j i t :
  resolve_effect j s res ->
  settled_result i res = Some (Resolved t) ->
  settled_result i s = Some (Resolved t) \/
  (token res = t /\ truthy (accessToken t) = true).
Proof.
  intros (c' & Hc & Hres). unfold settled_result. rewrite Hc.
  destruct (decide (j = i)) as [->|Hne].
  - destruct (decide (i < length (calls s))%nat) as [Hlt|Hge].
    + rewrite list_lookup_insert_eq by exact Hlt.
      destruct (progress c') as [| a | r | r | e] eqn:Hp; try discriminate;
        intros [= ->]; right; apply Hres; auto.
    + rewrite list_insert_ge by lia. by left.
  - rewrite list_lookup_insert_ne by exact Hne. by left.
Qed.

(** A promise of [set()] that is resolved after a step was resolved before
    it, or the step stored the token it resolved with. *)
Lemma step_resolved e s i t :
  settled_result i (fst (step cfg e s)) = Some (Resolved t) ->
  settled_result i s = Some (Resolved t) \/
  (token (fst (step cfg e s)) = t /\ truthy (accessToken t) = true).
Proof.
  destruct e as [| now | | now | j | j r now | j now | err body]; cbn [step].
  - destruct (refreshTimer s); [|by left].
    destruct (Token_set_calls Direct s) as (c' & Hc & Hj & _).
    intros Hr. left. by apply (settled_snoc s _ Direct c' i t Hc Hj).
  - destruct (refreshTimer s); [|by left].
    destruct (refreshIfExpiring_calls now s) as [Hc | (c' & Hc & Hj)]; intros Hr; left.
    + by rewrite <- (settled_result_ext s _ i) by (by rewrite Hc).
    + by apply (settled_snoc s _ Refresh c' i t Hc Hj).
  - destruct (refreshTimer s); by left.
  - destruct (refreshTimer s); [|by left].
    destruct (refreshIfExpiring_calls now s) as [Hc | (c' & Hc & Hj)]; intros Hr; left.
    + by rewrite <- (settled_result_ext s _ i) by (by rewrite Hc).
    + by apply (settled_snoc s _ Refresh c' i t Hc Hj).
  - destruct (calls s !! j) as [cj|] eqn:Hj; [|by left].
    destruct (progress cj); try by left.
    apply (settled_advance s _ j i t), on_ready_resolve.
  - destruct (calls s !! j) as [cj|] eqn:Hj; [|by left].
    destruct (progress cj); try by left.
    apply (settled_advance s _ j i t), on_response_resolve.
  - destruct (calls s !! j) as [cj|] eqn:Hj; [|by left].
    destruct (progress cj) as [| a | r | r | e] eqn:Hp; try by left.
    set (s1 := set_call j (with_progress (Done r) cj) s).
    intros Hr. left.
    assert (Hs1 : settled_result i s1 = Some (Resolved t)).
    { destruct (handlers_calls (caller cj) r now s1) as [Hc | (c' & Hc & Hjs)].
      - by rewrite <- (settled_result_ext s1 _ i) by (by rewrite Hc).
      - by apply (settled_snoc s1 _ Refresh c' i t Hc Hjs). }
    revert Hs1. unfold settled_result, s1. cbn [calls set_call].
    destruct (decide (j = i)) as [->|Hne].
    + rewrite list_lookup_insert_eq by (by eapply lookup_lt_Some).
      rewrite Hj, Hp. by cbn [progress with_progress].
    + by rewrite list_lookup_insert_ne.
  - unfold Token_revoke_reply. destruct (revokes_in_flight s); by left.
Qed.

(** An accepted response resolves the promise with the token it stores. *)
Lemma accepted_resolves i c a r now s :
  calls s !! i = Some c -> progress c = RequestPending a -> accepted r = true ->
  let s' := fst (step cfg (ExchangeReply i r now) s) in
  settled_result i s' = Some (Resolved (token s')) /\
  truthy (accessToken (token s')) = true.
Proof.
  intros Hi Hp Hr s'. subst s'. pose proof (lookup_lt_Some _ _ _ Hi) as Hlt.
  cbn [step]. rewrite Hi, Hp. unfold on_response. unfold accepted in Hr.
  destruct r as [e|[raw|v]]; try discriminate.
  destruct (get_prop "access_token" v) as [tok|e]; [|discriminate].
  rewrite Hr. cbn [negb]. unfold settled_result.
  cbn [settle fst calls set_call set_token token].
  rewrite list_lookup_insert_eq by exact Hlt. by cbn [progress with_progress].
Qed.

Lemma step_token_inv e s : token_inv s -> token_inv (fst (step cfg e s)).
Proof.
  intros Hinv.
  destruct (step_token e s) as [Hsame | (i & r & now & -> & Hr)].
  - destruct Hinv as [[Hnew Hnone] | (j & Hj & Htruthy)].
    + left. split; [by rewrite Hsame|]. intros i t Hres.
      destruct (step_resolved e s i t Hres) as [Hold | [Htok Htr]].
      * by destruct (Hnone i t).
      * rewrite Hsame, Hnew in Htok. subst t. discriminate.
    + right. exists j. rewrite Hsame. split; [|exact Htruthy].
      by apply settled_result_stable.
  - destruct (calls s !! i) as [c|] eqn:Hi;
      [destruct (progress c) as [| a | r' | r' | e'] eqn:Hp|];
      try (cbn [step]; rewrite Hi, ?Hp; exact Hinv).
    right. exists i. by apply (accepted_resolves i c a).
Qed.

Lemma reachable_token_inv s : reachable cfg s -> token_inv s.
Proof.
  induction 1 as [p0 | e s _ IH]; [|by apply step_token_inv].
  left. unfold boot. split; [by rewrite Token_set_token|].
  intros i t Hres.
  destruct (Token_set_calls Init
              {| token := Token_new; isRefreshing := false; refreshTimer := false;
                 payload := p0; uuid_calls := O; calls := [];
                 revokes_in_flight := O |}) as (c' & Hc & Hj & _).
  pose proof (settled_snoc _ _ Init c' i t Hc Hj Hres) as Hold.
  unfold settled_result in Hold. cbn [calls] in Hold. by rewrite lookup_nil in Hold.
Qed.

(** C2 (amended). [get()] never fails.  On an instance on which no [set()]
    has resolved it resolves with [undefined]; once a [set()] has resolved it
    resolves with the current access token, a truthy value that some [set()]
    resolved with, whether or not [revoke()] was called; and the step in which
    a [set()] resolves makes [get()] resolve with the access token just
    received. *)
Theorem get_resolves (s : System) :
  reachable cfg s ->
  (forall e, Token_get s <> Rejected e) /\
  ((forall i t, settled_result i s <> Some (Resolved t)) ->
     Token_get s = Resolved None) /\
  ((exists i t, settled_result i s = Some (Resolved t)) ->
     exists j t, settled_result j s = Some (Resolved t) /\
                 Token_get s = Resolved (accessToken t) /\
                 truthy (accessToken t) = true) /\
  (forall i c a members now,
     calls s !! i = Some c -> progress c = RequestPending a ->
     truthy (lookup_member "access_token" members) = true ->
     let s' := fst (step cfg (ExchangeReply i (ReplyBody (Json (JObj members))) now) s) in
     settled_result i s' = Some (Resolved (token s')) /\
     Token_get s' = Resolved (lookup_member "access_token" members)).
Proof.
  intros Hreach. pose proof (reachable_token_inv s Hreach) as Hinv.
  split; [discriminate|]. split; [|split].
  - intros Hnone. destruct Hinv as [[Hnew _] | (j & Hj & _)].
    + unfold Token_get. by rewrite Hnew.
    + by destruct (Hnone j (token s)).
  - intros (i & t & Hres). destruct Hinv as [[_ Hnone] | (j & Hj & Htr)].
    + by destruct (Hnone i t).
    + exists j, (token s). auto.
  - intros i c a members now Hi Hp Htok s'. subst s'.
    pose proof (lookup_lt_Some _ _ _ Hi) as Hlt.
    cbn [step]. rewrite Hi, Hp. unfold on_response. cbn [get_prop].
    rewrite Htok. cbn [negb]. unfold settled_result, Token_get.
    cbn [settle fst calls set_call set_token token].
    rewrite list_lookup_insert_eq by exact Hlt. by cbn [progress with_progress].
Qed.

End Properties.

(** * The properties on the concrete platform *)

Import Demo.




Lemma granted_reachable : reachable (H := platform) (config 4) granted_state.
Proof. apply reachable_run, reachable_boot. Defined.

(** ** C1 *)



(** ** C2 *)

(** On the instance the module body has just created, no [set()] has resolved,
    and [get()] does not fail: it resolves with [undefined]. *)
Lemma get_before_set :
  let s := fst (boot (config 4) ∅) in
  (forall i t, settled_result i s <> Some (Resolved t)) /\
  Token_get s = Resolved None /\
  ~ (exists e, Token_get s = Rejected e).
Proof.
  cbv zeta. split; [|split].
  - intros [|[|i]] t; vm_compute; discriminate.
  - reflexivity.
  - intros [e He]. discriminate He.
Qed.

Lemma get_resolves_witness :
  reachable (H := platform) (config 4) granted_state /\
  exists j t, settled_result j granted_state = Some (Resolved t) /\
              Token_get granted_state = Resolved (accessToken t) /\
              truthy (accessToken t) = true.
Proof.
  split; [exact granted_reachable|].
  apply (get_resolves (H := platform) (config 4) granted_state granted_reachable).
  exists 0%nat, (token granted_state). reflexivity.
Defined.

(** ** C3 *)



(** ** C4 *)

Lemma one_refresh_in_flight_witness :
  reachable (H := platform) (config 4) refreshing_state /\
  isRefreshing refreshing_state = true /\
  refreshes_in_flight (calls refreshing_state) = 1%nat /\
  step (H := platform) (config 4) (TimerFires 3656001) refreshing_state =
    (refreshing_state, []).
Proof.
  assert (Hreach : reachable (H := platform) (config 4) refreshing_state)
    by apply reachable_run, granted_reachable.
  destruct (one_refresh_in_flight (H := platform) (config 4) refreshing_state Hreach)
    as (_ & Hguard & _ & _ & _ & Hidle).
  split; [exact Hreach|]. split; [reflexivity|].
  split; [by apply Hguard|]. by apply (Hidle 3656001).
Defined.

(** ** C5 *)



(** ** C6 *)


(** ** C7 *)


(** ** C8 *)

Lemma verification_failure_aborts_witness :
  let s := fst (boot (mismatched 4) ∅) in
  fresh_jwt (H := platform) (mismatched 4) s = Ok "k.#" /\
  jwt_verify (Platform := platform) "k.#" (publicKey (mismatched 4)) =
    Some (Foreign "JsonWebTokenError" "invalid signature") /\
  snd (step (H := platform) (mismatched 4) (BackoffTimer 0) s) =
    [SetSettled 0 (Rejected (Foreign "JsonWebTokenError" "invalid signature"))].
Proof.
  cbv zeta.
  assert (Hs : fresh_jwt (H := platform) (mismatched 4) (fst (boot (mismatched 4) ∅))
               = Ok "k.#") by (vm_compute; reflexivity).
  assert (Hv : jwt_verify (Platform := platform) "k.#" (publicKey (mismatched 4)) =
               Some (Foreign "JsonWebTokenError" "invalid signature"))
    by (vm_compute; reflexivity).
  split; [exact Hs|]. split; [exact Hv|].
  apply (verification_failure_aborts (H := platform) (mismatched 4) 0
           {| fibonacciBackoff := {| backoffNumber_ := 0; maxNumberOfRetry_ := 4 |};
              progress := TimerPending; caller := Init |}
           (fst (boot (mismatched 4) ∅)) "k.#"
           (Foreign "JsonWebTokenError" "invalid signature")
           eq_refl eq_refl Hs Hv).
Defined.

(** ** C9 *)


(** * Further properties of the token module *)

Section TokenModule.
Context `{Platform} (cfg : Config).

(** ** When [refreshIfExpiring] acts *)


(** ** A response without a usable [expires_in] *)

(** An accepted response whose [expires_in] is missing stores [NaN] as the
    expiry, and as long as that token is the stored one, [refreshIfExpiring]
    never starts a refresh, whatever the time. *)
Theorem missing_expires_in_disables_refresh (i : nat) (c : SetCall) (a : string)
    (s : System) (members : list (string * json)) (now : Z) :
  calls s !! i = Some c -> progress c = RequestPending a ->
  truthy (lookup_member "access_token" members) = true ->
  lookup_member "expires_in" members = None ->
  let s' := fst (step cfg (ExchangeReply i (ReplyBody (Json (JObj members))) now) s) in
  accessToken (token s') = lookup_member "access_token" members /\
  issuedAt (token s') = Some now /\
  expiresAt (token s') = Some NaN /\
  forall s'' later, token s'' = token s' ->
    Token_refreshIfExpiring cfg later s'' = (s'', []).
Proof.
  intros Hi Hp Htok Hexp s'. subst s'.
  cbn [step]. rewrite Hi, Hp. unfold on_response. cbn [get_prop].
  rewrite Htok, Hexp. cbn [negb settle fst token set_call set_token stamp].
  cbn [accessToken issuedAt expiresAt ToNumber num_mul num_add].
  repeat split. intros s'' later Hsame.
  unfold Token_refreshIfExpiring, doRefresh. rewrite Hsame.
  cbn [expiresAt num_sub num_lt]. by rewrite andb_false_r.
Qed.

(** ** The shape of the stored token *)


(** ** The caller's payload *)

(** The module writes one member of the payload object it was given, [jti]:
    every other member is, after any run, what the caller passed in. *)
Theorem payload_only_jti_written (payload0 : gmap string json) (evs : list Event)
    (k : string) :
  k <> "jti" ->
  payload (fst (run cfg evs (fst (boot cfg payload0)))) !! k = payload0 !! k.
Proof.
  intros Hk.
  assert (Hstep : forall e s, payload (fst (step cfg e s)) !! k = payload s !! k).
  { intros e s.
    destruct e as [| now | | now | i | i r now | i now | err body]; cbn [step];
      unfold handlers, Token_refreshIfExpiring, Token_set, Token_revoke,
        Token_revoke_reply, on_ready, on_response, backoff, settle;
      repeat case_match; simplify_eq; simpl; try reflexivity;
      by rewrite lookup_insert_ne. }
  assert (Hrun : forall s, payload (fst (run cfg evs s)) !! k = payload s !! k).
  { induction evs as [|e evs IH]; intros s; [reflexivity|].
    cbn [run]. specialize (Hstep e s). destruct (step cfg e s) as [s1 o1].
    specialize (IH s1). destruct (run cfg evs s1) as [s2 o2].
    cbn [fst] in *. by rewrite IH. }
  rewrite Hrun. unfold boot, Token_set, backoff, settle.
  by repeat case_match.
Qed.

(** ** Start-up *)

Lemma timer_stays_armed e s :
  refreshTimer s = true -> refreshTimer (fst (step cfg e s)) = true.
Proof.
  intros Harmed.
  destruct e as [| now | | now | i | i r now | i now | err body]; cbn [step];
    unfold handlers, Token_refreshIfExpiring, Token_set, Token_revoke,
      Token_revoke_reply, on_ready, on_response, backoff, settle;
    repeat case_match; simplify_eq; simpl; done.
Qed.

Lemma step_startup_inv e s : startup_inv s -> startup_inv (fst (step cfg e s)).
Proof.
  intros Hinv. assert (Hsame := Hinv).
  destruct Hinv as [(Hoff & Hrev & c & Hcalls & Hcaller & Hc) | (Hon & t & Ht)].
  - assert (Hi : forall i, i <> 0%nat -> calls s !! i = None).
    { intros [|i] Hne; [done|]. by rewrite Hcalls. }
    assert (H0 : calls s !! 0%nat = Some c) by (by rewrite Hcalls).
    assert (Hkeep : forall res, local_effect 0 c s res ->
                      revokes_in_flight res = O -> startup_inv res).
    { intros res (c' & Hres & Hcaller' & Hc' & _ & Htimer) Hrev'. left.
      split; [by rewrite Htimer|]. split; [exact Hrev'|].
      exists c'. rewrite Hres, Hcalls.
      repeat split; [congruence|]. intros t. apply Hc'. }
    destruct e as [| now | | now | i | i r now | i now | err body]; cbn [step];
      rewrite ?Hoff; try exact Hsame.
    + destruct i as [|i]; [|rewrite Hi by done; exact Hsame].
      rewrite H0. destruct (progress c); try exact Hsame.
      apply Hkeep; [apply on_ready_effect|].
      unfold on_ready, settle. by repeat case_match.
    + destruct i as [|i]; [|rewrite Hi by done; exact Hsame].
      rewrite H0. destruct (progress c); try exact Hsame.
      apply Hkeep; [apply on_response_effect|].
      unfold on_response, backoff, settle. by repeat case_match.
    + destruct i as [|i]; [|rewrite Hi by done; exact Hsame].
      rewrite H0. destruct (progress c) as [| a | r | r | err] eqn:Hp; try exact Hsame.
      rewrite Hcaller. destruct r as [t|err]; cbn [handlers].
      * right.
        pose proof (timer_stays_armed (TimerFires now)
                      (set_refreshTimer true (set_call 0 (with_progress (Done (Resolved t)) c) s))
                      eq_refl) as Harmed.
        pose proof (lookup_refreshIfExpiring cfg now
                      (set_refreshTimer true (set_call 0 (with_progress (Done (Resolved t)) c) s))
                      0%nat) as Hlook.
        cbn [step refreshTimer set_refreshTimer] in Harmed.
        destruct (Token_refreshIfExpiring cfg now _) as [s1 o1]. cbn [fst] in *.
        split; [exact Harmed|]. exists t. unfold settled_result.
        rewrite Hlook by (cbn [calls set_refreshTimer set_call]; rewrite length_insert, Hcalls;
                          simpl; lia).
        cbn [calls set_refreshTimer set_call]. by rewrite Hcalls.
      * left. cbn [fst refreshTimer revokes_in_flight set_call calls].
        split; [exact Hoff|]. split; [exact Hrev|].
        rewrite Hcalls. eexists. by repeat split.
    + unfold Token_revoke_reply. rewrite Hrev. exact Hsame.
  - right. split; [by apply timer_stays_armed|]. exists t.
    by apply settled_result_stable.
Qed.

Lemma reachable_startup_inv s : reachable cfg s -> startup_inv s.
Proof.
  induction 1 as [p0 | e s _ IH]; [|by apply step_startup_inv].
  left. unfold boot.
  destruct (Token_set_calls cfg Init
              {| token := Token_new; isRefreshing := false; refreshTimer := false;
                 payload := p0; uuid_calls := O; calls := [];
                 revokes_in_flight := O |}) as (c' & Hc & [Hcaller Hp] & _ & Htimer).
  split; [by rewrite Htimer|].
  split; [unfold Token_set, backoff, settle; by repeat case_match|].
  exists c'. rewrite Hc. repeat split; [exact Hcaller|].
  intros t. destruct Hp as [-> | [e ->]]; discriminate.
Qed.

(** A collaborator can reach [get()] only through [api], and [api] exists
    only once the first [set()] has resolved: whenever the timer is armed,
    [get()] resolves with a truthy access token. *)
Theorem api_token_always_set (s : System) :
  reachable cfg s -> refreshTimer s = true ->
  (exists t, settled_result 0 s = Some (Resolved t)) /\
  exists v, Token_get s = Resolved v /\ truthy v = true.
Proof.
  intros Hreach Harmed.
  destruct (reachable_startup_inv s Hreach) as [[Hoff _] | [_ [t Ht]]]; [congruence|].
  split; [eauto|].
  destruct (reachable_token_inv cfg s Hreach) as [[_ Hnone] | (j & _ & Htruthy)].
  - by destruct (Hnone 0%nat t).
  - exists (accessToken (token s)). by split.
Qed.

Lemma step_startup_failed err e s :
  startup_failed err s ->
  startup_failed err (fst (step cfg e s)) /\
  token (fst (step cfg e s)) = token s /\
  (snd (step cfg e s) = [] \/ snd (step cfg e s) = [ModuleSettled (Rejected err)]).
Proof.
  intros Hfailed. assert (Hsame := Hfailed).
  destruct Hfailed as (Hoff & Hrev & c & Hcalls & Hcaller & Hp).
  assert (Hi : forall i, i <> 0%nat -> calls s !! i = None).
  { intros [|i] Hne; [done|]. by rewrite Hcalls. }
  assert (H0 : calls s !! 0%nat = Some c) by (by rewrite Hcalls).
  assert (Hnoop : startup_failed err (fst (s, @nil Obs)) /\
                  token (fst (s, @nil Obs)) = token s /\
                  (snd (s, @nil Obs) = [] \/
                   snd (s, @nil Obs) = [ModuleSettled (Rejected err)]))
    by (split; [exact Hsame | split; [reflexivity | by left]]).
  destruct e as [| now | | now | i | i r now | i now | e' body]; cbn [step];
    rewrite ?Hoff; try exact Hnoop.
  - destruct i as [|i]; [|rewrite Hi by done; exact Hnoop].
    rewrite H0. destruct Hp as [-> | ->]; exact Hnoop.
  - destruct i as [|i]; [|rewrite Hi by done; exact Hnoop].
    rewrite H0. destruct Hp as [-> | ->]; exact Hnoop.
  - destruct i as [|i]; [|rewrite Hi by done; exact Hnoop].
    rewrite H0. destruct Hp as [Hp | Hp]; rewrite Hp; [|exact Hnoop].
    rewrite Hcaller. cbn [handlers fst snd token set_call].
    split; [|split; [reflexivity | by right]].
    split; [exact Hoff|]. split; [exact Hrev|]. cbn [calls set_call]. rewrite Hcalls.
    eexists. repeat split; [exact Hcaller | by right].
  - unfold Token_revoke_reply. rewrite Hrev. exact Hnoop.
Qed.

(** When the first [set()] is rejected, the module stays as it is for good:
    the timer is never armed, no [set()] is ever started and nothing is ever
    posted again; all that can still be observed is the rejection of the
    module promise, and the token stays undefined. *)
Theorem failed_startup_is_final (s : System) (err : jserror) (evs : list Event) :
  reachable cfg s -> settled_result 0 s = Some (Rejected err) ->
  let res := run cfg evs s in
  refreshTimer (fst res) = false /\
  length (calls (fst res)) = 1%nat /\
  settled_result 0 (fst res) = Some (Rejected err) /\
  Token_get (fst res) = Resolved None /\
  exchange_posts (snd res) = [] /\
  Forall (fun o => o = ModuleSettled (Rejected err)) (snd res).
Proof.
  intros Hreach Hrej res. subst res.
  assert (Hfailed : startup_failed err s).
  { destruct (reachable_startup_inv s Hreach)
      as [(Hoff & Hrev & c & Hcalls & Hcaller & _) | (_ & t & Ht)]; [|congruence].
    split; [exact Hoff|]. split; [exact Hrev|]. exists c. repeat split; try done.
    unfold settled_result in Hrej. rewrite Hcalls in Hrej. cbn [lookup list_lookup] in Hrej.
    destruct (progress c); try discriminate; injection Hrej as ->; auto. }
  assert (Hnew : token s = Token_new).
  { destruct (reachable_token_inv cfg s Hreach) as [[Hnew _] | (j & Hj & _)]; [exact Hnew|].
    destruct Hfailed as (_ & _ & c & Hcalls & _ & Hp).
    unfold settled_result in Hj. rewrite Hcalls in Hj.
    destruct j as [|j]; cbn [lookup list_lookup] in Hj; [|by destruct j].
    destruct Hp as [Hp | Hp]; rewrite Hp in Hj; discriminate. }
  assert (Hrun : forall evs' s', startup_failed err s' ->
            startup_failed err (fst (run cfg evs' s')) /\
            token (fst (run cfg evs' s')) = token s' /\
            Forall (fun o => o = ModuleSettled (Rejected err)) (snd (run cfg evs' s'))).
  { induction evs' as [|e evs' IH]; intros s' Hs';
      [split; [exact Hs' | split; [reflexivity | constructor]]|].
    cbn [run]. destruct (step_startup_failed err e s' Hs') as (Hs1 & Ht1 & Ho1).
    destruct (step cfg e s') as [s1 o1]. cbn [fst snd] in *.
    destruct (IH s1 Hs1) as (Hs2 & Ht2 & Ho2).
    destruct (run cfg evs' s1) as [s2 o2]. cbn [fst snd] in *.
    split; [exact Hs2|]. split; [congruence|].
    apply Forall_app. split; [|exact Ho2].
    destruct Ho1 as [-> | ->]; repeat constructor. }
  destruct (Hrun evs s Hfailed) as ((Hoff & _ & c & Hcalls & _ & Hp) & Htok & Hobs).
  split; [exact Hoff|]. split; [by rewrite Hcalls|].
  split; [exact (run_settled cfg evs s 0 (Rejected err) Hrej)|].
  split; [unfold Token_get; by rewrite Htok, Hnew|].
  split; [|exact Hobs].
  induction Hobs as [|o obs -> _ IH]; [reflexivity | exact IH].
Qed.

(** ** A callback that dies *)

(** A call whose callback died on an exception is never touched again. *)
Lemma step_keeps_dead e s i c err :
  calls s !! i = Some c -> progress c = Uncaught err ->
  calls (fst (step cfg e s)) !! i = Some c.
Proof.
  intros Hi Hp. pose proof (lookup_lt_Some _ _ _ Hi) as Hlt. rewrite <- Hi.
  destruct e as [| now | | now | j | j r' now | j now | err' body]; cbn [step].
  - destruct (refreshTimer s); [|reflexivity]. by apply lookup_Token_set.
  - destruct (refreshTimer s); [|reflexivity]. by apply lookup_refreshIfExpiring.
  - destruct (refreshTimer s); reflexivity.
  - destruct (refreshTimer s); [|reflexivity]. by apply lookup_refreshIfExpiring.
  - destruct (calls s !! j) as [cj|] eqn:Hj; [|reflexivity].
    destruct (progress cj) eqn:Hpj; try reflexivity.
    destruct (on_ready_effect cfg j cj s) as (c' & Hc & _).
    rewrite Hc. apply list_lookup_insert_ne.
    intros ->. rewrite Hi in Hj. injection Hj as ->. congruence.
  - destruct (calls s !! j) as [cj|] eqn:Hj; [|reflexivity].
    destruct (progress cj) eqn:Hpj; try reflexivity.
    destruct (on_response_effect j cj r' now s) as (c' & Hc & _).
    rewrite Hc. apply list_lookup_insert_ne.
    intros ->. rewrite Hi in Hj. injection Hj as ->. congruence.
  - destruct (calls s !! j) as [cj|] eqn:Hj; [|reflexivity].
    destruct (progress cj) as [| a | rj | rj | ej] eqn:Hpj; try reflexivity.
    rewrite lookup_handlers by (cbn [calls set_call]; by rewrite length_insert).
    cbn [calls set_call]. apply list_lookup_insert_ne.
    intros ->. rewrite Hi in Hj. injection Hj as ->. congruence.
  - unfold Token_revoke_reply. destruct (revokes_in_flight s); reflexivity.
Qed.

Lemma run_wedged evs s i : wedged i s -> wedged i (fst (run cfg evs s)).
Proof.
  revert s. induction evs as [|e evs IH]; intros s Hw; [exact Hw|].
  cbn [run]. destruct Hw as (c & err & Hi & Hcaller & Hp).
  pose proof (step_keeps_dead e s i c err Hi Hp) as Hi1.
  destruct (step cfg e s) as [s1 o1]. cbn [fst] in Hi1.
  assert (Hw1 : wedged i s1) by (exists c, err; auto).
  specialize (IH s1 Hw1). by destruct (run cfg evs s1).
Qed.

Lemma refresh_counted (l : list SetCall) i c :
  l !! i = Some c -> refresh_in_flight c = true ->
  (1 <= refreshes_in_flight l)%nat.
Proof.
  unfold refreshes_in_flight. revert i.
  induction l as [|d l IH]; intros [|i] Hi Hc; simpl in *; try discriminate.
  - injection Hi as ->. rewrite Hc. simpl. lia.
  - specialize (IH i Hi Hc). destruct (refresh_in_flight d); simpl; lia.
Qed.

(** When the body of the response to a refresh is the JSON value [null],
    reading [access_token] off it throws a [TypeError] that nothing catches.
    The promise of that [set()] then never settles, so the [finally] handler
    never runs: in every later state the guard is still up, and
    [refreshIfExpiring], called directly or by the timer, never starts a
    refresh again. *)
Theorem null_body_wedges_refresh (i : nat) (c : SetCall) (a : string)
    (s : System) (now : Z) (evs : list Event) :
  reachable cfg s ->
  calls s !! i = Some c -> progress c = RequestPending a -> caller c = Refresh ->
  let first := step cfg (ExchangeReply i (ReplyBody (Json JNull)) now) s in
  let s' := fst (run cfg evs (fst first)) in
  (exists err, snd first = [UncaughtException i err]) /\
  token (fst first) = token s /\
  settled_result i s' = None /\
  isRefreshing s' = true /\
  forall later,
    Token_refreshIfExpiring cfg later s' = (s', []) /\
    step cfg (TimerFires later) s' = (s', []).
Proof.
  intros Hreach Hi Hp Hcaller first s'.
  pose proof (lookup_lt_Some _ _ _ Hi) as Hlt.
  assert (Hfirst : first = (set_call i (with_progress
                              (Uncaught (Foreign "TypeError" "Cannot read property of null")) c) s,
                            [UncaughtException i
                               (Foreign "TypeError" "Cannot read property of null")])).
  { subst first. cbn [step]. by rewrite Hi, Hp. }
  assert (Hw : wedged i s').
  { subst s'. apply run_wedged. rewrite Hfirst. cbn [fst].
    eexists _, _. cbn [calls set_call]. rewrite list_lookup_insert_eq by exact Hlt.
    by repeat split. }
  assert (Hreach' : reachable cfg s').
  { subst s' first. by apply reachable_run, reachable_step. }
  assert (Hup : isRefreshing s' = true).
  { destruct Hw as (c' & err & Hi' & Hcaller' & Hp').
    pose proof (reachable_guard cfg s' Hreach') as Hinv. unfold guard_inv in Hinv.
    assert (Hc' : refresh_in_flight c' = true)
      by (unfold refresh_in_flight; by rewrite Hcaller', Hp').
    pose proof (refresh_counted _ i c' Hi' Hc') as Hone.
    destruct (isRefreshing s'); [reflexivity | lia]. }
  split; [rewrite Hfirst; eauto|]. split; [by rewrite Hfirst|].
  split; [|split; [exact Hup|]].
  - destruct Hw as (c' & err & Hi' & _ & Hp'). unfold settled_result.
    by rewrite Hi', Hp'.
  - intros later. unfold step, Token_refreshIfExpiring. rewrite Hup.
    by destruct (refreshTimer s').
Qed.

(** Once the callback of the first [set()] has died before the module
    promise settled, no callback has any effect. *)
Lemma step_startup_dead e s c err :
  refreshTimer s = false -> revokes_in_flight s = O ->
  calls s = [c] -> progress c = Uncaught err ->
  step cfg e s = (s, []).
Proof.
  intros Hoff Hrev Hcalls Hp.
  destruct e as [| now | | now | i | i r now | i now | err' body]; cbn [step];
    rewrite ?Hoff, ?Hcalls; try reflexivity.
  - destruct i as [|[|i]]; cbn [lookup list_lookup]; by rewrite ?Hp.
  - destruct i as [|[|i]]; cbn [lookup list_lookup]; by rewrite ?Hp.
  - destruct i as [|[|i]]; cbn [lookup list_lookup]; by rewrite ?Hp.
  - unfold Token_revoke_reply. by rewrite Hrev.
Qed.

(** When [jwt.sign] throws in an attempt of the first [set()], the exception
    leaves the timer callback uncaught, since the call is outside the [try]:
    the promise of that [set()] never settles, and so the module promise is
    neither resolved nor rejected.  Nothing is posted, and no later callback
    has any effect. *)
Theorem sign_failure_hangs_startup (s : System) (c : SetCall) (err : jserror)
    (evs : list Event) :
  reachable cfg s ->
  calls s !! 0%nat = Some c -> progress c = TimerPending ->
  fresh_jwt cfg s = Throws err ->
  let first := step cfg (BackoffTimer 0) s in
  snd first = [UncaughtException 0 err] /\
  settled_result 0 (fst first) = None /\
  refreshTimer (fst first) = false /\
  run cfg evs (fst first) = (fst first, []).
Proof.
  intros Hreach Hi Hp Hsign first.
  destruct (reachable_startup_inv s Hreach)
    as [(Hoff & Hrev & c0 & Hcalls & _) | (_ & t & Ht)].
  2: { unfold settled_result in Ht. rewrite Hi, Hp in Ht. discriminate. }
  assert (c0 = c) as -> by (rewrite Hcalls in Hi; by injection Hi).
  assert (Hfirst : first = (set_call 0 (with_progress (Uncaught err) c) (stamp_jti s),
                            [UncaughtException 0 err])).
  { subst first. cbn [step]. rewrite Hi, Hp. unfold on_ready. by rewrite Hsign. }
  rewrite Hfirst. cbn [fst snd].
  split; [reflexivity|]. split.
  { unfold settled_result. cbn [calls set_call stamp_jti]. by rewrite Hcalls. }
  split; [exact Hoff|].
  induction evs as [|e evs IH]; [reflexivity|]. cbn [run].
  rewrite (step_startup_dead e _ (with_progress (Uncaught err) c) err);
    [by rewrite IH | exact Hoff | exact Hrev | | reflexivity].
  cbn [calls set_call stamp_jti]. by rewrite Hcalls.
Qed.

End TokenModule.

(** * Properties of the search collection *)

Section SearchCollection.
Context `{Search.Env}.
Import Search.

(** ** The object [queryFields] *)

Lemma append_cons (x : Ascii.ascii) (a b : string) :
  String.append (String x a) b = String x (String.append a b).
Proof. reflexivity. Qed.

Lemma append_assoc (a b c : string) :
  String.append (String.append a b) c = String.append a (String.append b c).
Proof.
  induction a as [|x a IH]; [reflexivity|]. by rewrite !append_cons, IH.
Qed.

Lemma append_empty_r (a : string) : String.append a "" = a.
Proof. induction a as [|x a IH]; [reflexivity|]. by rewrite append_cons, IH. Qed.

Lemma field_set_eq k v q : field k (set_field k v q) = Some v.
Proof.
  induction q as [|[k' w] q IH]; simpl.
  - by rewrite String.eqb_refl.
  - destruct (String.eqb k' k) eqn:Hk; simpl; rewrite Hk; [reflexivity | exact IH].
Qed.

Lemma field_set_ne k k' v q : k <> k' -> field k' (set_field k v q) = field k' q.
Proof.
  intros Hne. induction q as [|[k0 w] q IH]; simpl.
  - destruct (String.eqb k k') eqn:Hk; [|reflexivity].
    apply String.eqb_eq in Hk. by destruct Hne.
  - destruct (String.eqb k0 k) eqn:Hk; simpl.
    + apply String.eqb_eq in Hk. subst k0.
      destruct (String.eqb k k') eqn:Hk'; [|reflexivity].
      apply String.eqb_eq in Hk'. by destruct Hne.
    + by rewrite IH.
Qed.

Lemma field_None_keys k q : field k q = None <-> k ∉ keys q.
Proof.
  induction q as [|[k0 w] q IH]; simpl.
  - split; [intros _; apply not_elem_of_nil | reflexivity].
  - rewrite not_elem_of_cons. destruct (String.eqb k0 k) eqn:Hk.
    + apply String.eqb_eq in Hk. split; [discriminate | intros [Hne _]; by destruct Hne].
    + apply String.eqb_neq in Hk. rewrite IH. split; [intros Hq; split; congruence | tauto].
Qed.

Lemma field_None_keys' k q : field k q <> None -> k ∈ keys q.
Proof.
  intros Hf. destruct (decide (k ∈ keys q)) as [Hin|Hout]; [exact Hin|].
  by apply field_None_keys in Hout.
Qed.

Lemma keys_set_field k v q :
  keys (set_field k v q) = if bool_decide (k ∈ keys q) then keys q else keys q ++ [k].
Proof.
  induction q as [|[k0 w] q IH]; simpl; [reflexivity|].
  destruct (String.eqb k0 k) eqn:Hk; simpl.
  - apply String.eqb_eq in Hk. subst k0.
    rewrite bool_decide_eq_true_2; [reflexivity | apply elem_of_cons; by left].
  - apply String.eqb_neq in Hk. rewrite IH.
    destruct (bool_decide (k ∈ keys q)) eqn:Hin.
    + apply bool_decide_eq_true_1 in Hin.
      rewrite bool_decide_eq_true_2; [reflexivity | apply elem_of_cons; by right].
    + apply bool_decide_eq_false_1 in Hin.
      rewrite bool_decide_eq_false_2; [reflexivity|].
      rewrite elem_of_cons. intros [-> | Hq]; [by destruct Hk | by destruct Hin].
Qed.

Lemma extends_field_ne k k' q q' :
  extends k q q' -> k <> k' -> field k' q' = field k' q.
Proof. intros [-> | [v ->]] Hne; [reflexivity | by apply field_set_ne]. Qed.

Lemma extends_elem k k' q q' : extends k q q' -> k' ∈ keys q -> k' ∈ keys q'.
Proof.
  intros [-> | [v ->]] Hin; [exact Hin|]. rewrite keys_set_field.
  destruct (bool_decide (k ∈ keys q)); [exact Hin | apply elem_of_app; by left].
Qed.

Lemma sublist_without_last (l P : list string) k :
  l `sublist_of` P ++ [k] -> k ∉ l -> l `sublist_of` P.
Proof.
  intros Hsub Hk. apply sublist_app_r in Hsub as (l1 & l2 & -> & H1 & H2).
  assert (l2 = []) as ->.
  { destruct l2 as [|x l2]; [reflexivity|]. exfalso. apply Hk.
    assert (x ∈ [k]) as Hx by (eapply elem_of_sublist; [|exact H2]; apply elem_of_cons; by left).
    apply list_elem_of_singleton in Hx as ->. apply elem_of_app. right.
    apply elem_of_cons. by left. }
  by rewrite app_nil_r.
Qed.

Lemma extends_sublist_last k q q' P :
  extends k q q' -> keys q `sublist_of` P ++ [k] -> keys q' `sublist_of` P ++ [k].
Proof.
  intros [-> | [v ->]] Hsub; [exact Hsub|]. rewrite keys_set_field.
  destruct (bool_decide (k ∈ keys q)) eqn:Hin; [exact Hsub|].
  apply bool_decide_eq_false_1 in Hin.
  apply sublist_app; [by apply (sublist_without_last _ _ k) | reflexivity].
Qed.

Lemma extends_sublist_new k q q' P :
  extends k q q' -> keys q `sublist_of` P -> keys q' `sublist_of` P ++ [k].
Proof.
  intros Hext Hsub. apply (extends_sublist_last k q q'); [exact Hext|].
  by apply sublist_inserts_r.
Qed.

(** ** What each check does to [queryFields] *)

Lemma check_limit_extends args q q' :
  check_limit args q = Ok q' -> extends "limit" q q'.
Proof.
  unfold check_limit, bind. destruct (truthy (limit args)); [|intros [= <-]; by left].
  destruct (toValidLimitOrThrow _) as [v|e]; [|discriminate].
  intros [= <-]. right. eauto.
Qed.

Lemma check_offset_extends args q q' :
  check_offset args q = Ok q' -> extends "limit" q q'.
Proof.
  unfold check_offset, bind. destruct (truthy (offset args)); [|intros [= <-]; by left].
  destruct (toValidOffsetOrThrow _) as [v|e]; [|discriminate].
  intros [= <-]. right. eauto.
Qed.

Lemma check_fileExtensions_extends args q :
  extends "file_extensions" q (check_fileExtensions args q).
Proof.
  unfold check_fileExtensions. destruct (fileExtensions args) as [[]|];
    try (by left). right. eauto.
Qed.

Lemma check_query_extends args q q' :
  check_query args q = Ok q' -> extends "query" q q'.
Proof.
  unfold check_query. destruct (query args) as [[]|]; try discriminate.
  destruct (_ <? _)%nat; [|discriminate]. intros [= <-]. right. eauto.
Qed.

Lemma check_type_extends args q : extends "type" q (check_type args q).
Proof.
  unfold check_type. destruct (type args) as [t|]; [|by left].
  destruct (_ && _); [right; eauto | by left].
Qed.

Lemma check_contentTypes_extends args q q' :
  check_contentTypes args q = Ok q' -> extends "content_types" q q'.
Proof.
  unfold check_contentTypes. destruct (contentTypes args) as [[]|]; try discriminate.
  - destruct (forallb _ _); [|discriminate]. intros [= <-]. right. eauto.
  - intros [= <-]. by left.
Qed.

Lemma check_scope_extends args q q' :
  check_scope args q = Ok q' -> extends "scope" q q'.
Proof.
  unfold check_scope. destruct (scope args) as [[]|]; try discriminate.
  - destruct (negb _); [discriminate|]. intros [= <-]. right. eauto.
  - intros [= <-]. by left.
Qed.

Lemma check_sizeRange_extends args q q' :
  check_sizeRange args q = Ok q' -> extends "size_range" q q'.
Proof.
  unfold check_sizeRange, bind. destruct (sizeRange args) as [[]|]; try discriminate.
  - destruct (bound _ _ _) as [lb|]; [|discriminate].
    destruct (bound _ _ _) as [ub|]; [|discriminate].
    destruct (_ || _); intros [= <-]; [right; eauto | by left].
  - intros [= <-]. by left.
Qed.

Lemma check_ancestorFolderIds_extends args q q' ids :
  check_ancestorFolderIds args q = (Ok q', ids) -> extends "ancestor_folder_ids" q q'.
Proof.
  unfold check_ancestorFolderIds. destruct (ancestorFolderIds args) as [[]|];
    try discriminate.
  - destruct (convert_ids 0 _) as [items' [e|]]; [discriminate|].
    intros [= <- _]. right. eauto.
  - intros [= <- _]. by left.
Qed.

(** The stages a successful call goes through. *)
Lemma collect_stages args q ids :
  collect args = (Ok q, ids) ->
  exists q1 q2 q4 q6 q7 q8,
    check_limit args [] = Ok q1 /\
    check_offset args q1 = Ok q2 /\
    check_query args (check_fileExtensions args q2) = Ok q4 /\
    check_contentTypes args (check_type args q4) = Ok q6 /\
    check_scope args q6 = Ok q7 /\
    check_sizeRange args q7 = Ok q8 /\
    check_ancestorFolderIds args q8 = (Ok q, ids).
Proof.
  unfold collect, front_checks, bind.
  destruct (check_limit args []) as [q1|] eqn:H1; [|discriminate].
  destruct (check_offset args q1) as [q2|] eqn:H2; [|discriminate].
  destruct (check_query args _) as [q4|] eqn:H4; [|discriminate].
  destruct (check_contentTypes args _) as [q6|] eqn:H6; [|discriminate].
  destruct (check_scope args q6) as [q7|] eqn:H7; [|discriminate].
  destruct (check_sizeRange args q7) as [q8|] eqn:H8; [|discriminate].
  intros Hlast. exists q1, q2, q4, q6, q7, q8. by repeat split.
Qed.

(** ** The URL *)

Lemma append_fields_index url n q :
  append_fields url (S n) q = append_fields url 1 q.
Proof. destruct q as [|kv rest]; [reflexivity|]. simpl.
  revert n. generalize (String.append (String.append url "&") (pair_string kv)).
  induction rest as [|kv' rest IH]; intros u n; [reflexivity|]. simpl.
  rewrite (IH _ (S n)). symmetry. apply (IH _ 1%nat).
Qed.

Lemma append_fields_tail url q :
  append_fields url 1 q =
  String.append url
    match q with
    | [] => ""
    | _ :: _ => String.append "&" (join_amp (map pair_string q))
    end.
Proof.
  revert url. induction q as [|kv rest IH]; intros url.
  - simpl. by rewrite append_empty_r.
  - cbn [append_fields Nat.ltb Nat.leb]. rewrite append_fields_index, IH.
    cbn [map join_amp]. destruct rest as [|kv' rest]; cbn [map].
    + by rewrite append_empty_r, append_assoc.
    + by rewrite !append_assoc.
Qed.

Lemma append_fields_join url q :
  append_fields url 0 q = String.append url (join_amp (map pair_string q)).
Proof.
  destruct q as [|kv rest]; [simpl; by rewrite append_empty_r|].
  cbn [append_fields Nat.ltb Nat.leb]. rewrite append_fields_tail.
  cbn [map join_amp]. destruct rest as [|kv' rest]; cbn [map].
  - by rewrite append_empty_r.
  - by rewrite !append_assoc.
Qed.

(** When [execute] issues a request, its URL is the search end point
    followed by the parameters as [key=value], the value written as it is,
    joined by [&].  The keys are distinct and come in the fixed order [limit],
    [file_extensions], [query], [type], [content_types], [scope],
    [size_range], [ancestor_folder_ids]; [query] is always among them and
    [offset] never is. *)
Theorem execute_url_shape (args : Args) (url : string) (ids : jsval) :
  execute args = (Ok url, ids) ->
  exists q,
    collect args = (Ok q, ids) /\
    url = String.append "https://api.box.com/2.0/search?"
            (join_amp (map pair_string q)) /\
    keys q `sublist_of` parameter_order /\
    NoDup (keys q) /\
    "query" ∈ keys q /\
    "offset" ∉ keys q.
Proof.
  unfold execute. destruct (collect args) as [[q|e] ids'] eqn:Hc; [|discriminate].
  intros [= <- <-]. exists q. split; [reflexivity|].
  split; [apply append_fields_join|].
  destruct (collect_stages args q ids' Hc)
    as (q1 & q2 & q4 & q6 & q7 & q8 & H1 & H2 & H4 & H6 & H7 & H8 & H9).
  pose proof (check_limit_extends _ _ _ H1) as E1.
  pose proof (check_offset_extends _ _ _ H2) as E2.
  pose proof (check_fileExtensions_extends args q2) as E3.
  pose proof (check_query_extends _ _ _ H4) as E4.
  pose proof (check_type_extends args q4) as E5.
  pose proof (check_contentTypes_extends _ _ _ H6) as E6.
  pose proof (check_scope_extends _ _ _ H7) as E7.
  pose proof (check_sizeRange_extends _ _ _ H8) as E8.
  pose proof (check_ancestorFolderIds_extends _ _ _ _ H9) as E9.
  assert (Hsub : keys q `sublist_of` parameter_order).
  { unfold parameter_order.
    apply (extends_sublist_new _ _ _
             ["limit"; "file_extensions"; "query"; "type"; "content_types"; "scope";
              "size_range"] E9).
    apply (extends_sublist_new _ _ _
             ["limit"; "file_extensions"; "query"; "type"; "content_types"; "scope"] E8).
    apply (extends_sublist_new _ _ _
             ["limit"; "file_extensions"; "query"; "type"; "content_types"] E7).
    apply (extends_sublist_new _ _ _ ["limit"; "file_extensions"; "query"; "type"] E6).
    apply (extends_sublist_new _ _ _ ["limit"; "file_extensions"; "query"] E5).
    apply (extends_sublist_new _ _ _ ["limit"; "file_extensions"] E4).
    apply (extends_sublist_new _ _ _ ["limit"] E3).
    apply (extends_sublist_last _ _ _ [] E2).
    apply (extends_sublist_new _ _ _ [] E1). apply sublist_nil_l. }
  split; [exact Hsub|]. split; [|split].
  - apply (sublist_NoDup _ parameter_order); [|exact Hsub].
    unfold parameter_order. apply (bool_decide_unpack _). by vm_compute.
  - apply (extends_elem _ _ _ _ E9), (extends_elem _ _ _ _ E8),
      (extends_elem _ _ _ _ E7), (extends_elem _ _ _ _ E6), (extends_elem _ _ _ _ E5).
    apply field_None_keys'. unfold check_query in H4.
    destruct (query args) as [[]|]; try discriminate.
    destruct (_ <? _)%nat; [|discriminate]. injection H4 as <-.
    by rewrite field_set_eq.
  - intros Hin. apply (sublist_subseteq _ _ Hsub) in Hin.
    unfold parameter_order in Hin. rewrite !elem_of_cons, elem_of_nil in Hin.
    repeat destruct Hin as [Hin|Hin]; (discriminate || done).
Qed.

(** ** The parameters one by one *)

Ltac stages Hc :=
  let q1 := fresh "q1" in let q2 := fresh "q2" in let q4 := fresh "q4" in
  let q6 := fresh "q6" in let q7 := fresh "q7" in let q8 := fresh "q8" in
  match type of Hc with
  | collect ?args = _ =>
      destruct (collect_stages _ _ _ Hc)
        as (q1 & q2 & q4 & q6 & q7 & q8 & H1 & H2 & H4 & H6 & H7 & H8 & H9);
      pose proof (check_limit_extends _ _ _ H1) as E1;
      pose proof (check_offset_extends _ _ _ H2) as E2;
      pose proof (check_fileExtensions_extends args q2) as E3;
      pose proof (check_query_extends _ _ _ H4) as E4;
      pose proof (check_type_extends args q4) as E5;
      pose proof (check_contentTypes_extends _ _ _ H6) as E6;
      pose proof (check_scope_extends _ _ _ H7) as E7;
      pose proof (check_sizeRange_extends _ _ _ H8) as E8;
      pose proof (check_ancestorFolderIds_extends _ _ _ _ H9) as E9
  end.

Ltac later E := rewrite (extends_field_ne _ _ _ _ E) by discriminate.

(** A request with an [offset] carries the checked offset under the key
    [limit]; the checked [limit] is sent only when there is no offset, and no
    [limit] parameter is sent when both are missing or falsy. *)
Theorem offset_overrides_limit (args : Args) (q : Fields) (ids : jsval) :
  collect args = (Ok q, ids) ->
  (truthy (offset args) = true ->
     exists v, toValidOffsetOrThrow (offset args) = Ok v /\ field "limit" q = Some v) /\
  (truthy (offset args) = false -> truthy (limit args) = true ->
     exists v, toValidLimitOrThrow (limit args) = Ok v /\ field "limit" q = Some v) /\
  (truthy (offset args) = false -> truthy (limit args) = false ->
     field "limit" q = None).
Proof.
  intros Hc. stages Hc.
  later E9. later E8. later E7. later E6. later E5. later E4. later E3.
  unfold check_limit, check_offset, bind in H1, H2.
  split; [|split].
  - intros Ho. rewrite Ho in H2.
    destruct (toValidOffsetOrThrow _) as [v|e]; [|discriminate].
    injection H2 as <-. exists v. split; [reflexivity | apply field_set_eq].
  - intros Ho Hl. rewrite Ho in H2. rewrite Hl in H1. injection H2 as <-.
    destruct (toValidLimitOrThrow _) as [v|e]; [|discriminate].
    injection H1 as <-. exists v. split; reflexivity.
  - intros Ho Hl. rewrite Ho in H2. rewrite Hl in H1. injection H2 as <-.
    by injection H1 as <-.
Qed.


Lemma trim_left_all_space s : all_space s = true -> trim_left s = "".
Proof.
  induction s as [|c s IH]; [reflexivity|]. simpl.
  intros [Hc Hs]%andb_prop. rewrite Hc. by apply IH.
Qed.

(** The length of the query is checked before it is trimmed: a query of two
    or more white space characters is accepted, and the request carries an
    empty [query]. *)
Theorem blank_query_accepted (s : string) :
  (1 < String.length s)%nat -> all_space s = true ->
  execute (only_query s) = (Ok "https://api.box.com/2.0/search?query=", None).
Proof.
  intros Hlen Hs. apply Nat.ltb_lt in Hlen.
  unfold execute, collect, front_checks, check_limit, check_offset, check_query,
    check_fileExtensions, check_type, check_contentTypes, check_scope,
    check_sizeRange, check_ancestorFolderIds, bind. simpl.
  rewrite Hlen. unfold trim. rewrite (trim_left_all_space s Hs). reflexivity.
Qed.

(** Without a string of more than one character as [query], [execute]
    throws the error that names the received value, whatever the other
    arguments behind [limit] and [offset] are, and [args.ancestorFolderIds]
    is as it was. *)
Theorem short_query_rejected (args : Args) (q1 q2 : Fields) :
  check_limit args [] = Ok q1 -> check_offset args q1 = Ok q2 ->
  (forall s, query args = Some (JStr s) -> (String.length s <= 1)%nat) ->
  execute args =
    (Throws (Error (String.append "search:execute#query is not a String. Received -> "
                      (to_string (query args)))),
     ancestorFolderIds args).
Proof.
  intros H1 H2 Hq. unfold execute, collect, front_checks, bind.
  rewrite H1, H2. unfold check_query.
  destruct (query args) as [[| | |s| |]|]; try reflexivity.
  destruct (1 <? String.length s)%nat eqn:Hlen; [|reflexivity].
  apply Nat.ltb_lt in Hlen. specialize (Hq s eq_refl). lia.
Qed.

(** A [type] that is not one of [file], [folder] and [web_link] is ignored:
    the call behaves as if [type] had not been given. *)
Theorem unknown_type_ignored (args : Args) :
  (forall t, type args = Some t -> listed validTypes t = false) ->
  execute args = execute (without_type args).
Proof.
  intros Ht.
  assert (Hty : forall q, check_type args q = q).
  { intros q. unfold check_type. destruct (type args) as [t|]; [|reflexivity].
    rewrite (Ht t eq_refl). by rewrite andb_false_r. }
  unfold execute, collect, front_checks, bind.
  destruct (check_limit args []) as [q1|e] eqn:H1;
    change (check_limit (without_type args) []) with (check_limit args []);
    rewrite H1; [|reflexivity].
  change (check_offset (without_type args) q1) with (check_offset args q1).
  destruct (check_offset args q1) as [q2|e]; [|reflexivity].
  change (check_fileExtensions (without_type args) q2)
    with (check_fileExtensions args q2).
  change (check_query (without_type args) (check_fileExtensions args q2))
    with (check_query args (check_fileExtensions args q2)).
  destruct (check_query args _) as [q4|e]; [|reflexivity].
  rewrite Hty. change (check_type (without_type args) q4) with q4.
  reflexivity.
Qed.

(** A request is only issued when [contentTypes] is missing or an array of
    names among [name], [description], [file_content], [comments] and
    [tags], and when [scope] is missing or one of [user_content] and
    [enterprise_content]; it carries both as they were given. *)
Theorem accepted_args_are_valid (args : Args) (q : Fields) (ids : jsval) :
  collect args = (Ok q, ids) ->
  (field "content_types" q = contentTypes args /\
   forall v, contentTypes args = Some v ->
     exists items, v = JArr items /\
       Forall (fun x => exists s, x = JStr s /\ s ∈ validContentTypes) items) /\
  (field "scope" q = scope args /\
   forall v, scope args = Some v -> exists s, v = JStr s /\ s ∈ validScopes).
Proof.
  intros Hc. stages Hc.
  assert (Hkeys : keys (check_type args q4) `sublist_of`
                    ["limit"; "file_extensions"; "query"; "type"]).
  { apply (extends_sublist_new _ _ _ ["limit"; "file_extensions"; "query"] E5).
    apply (extends_sublist_new _ _ _ ["limit"; "file_extensions"] E4).
    apply (extends_sublist_new _ _ _ ["limit"] E3).
    apply (extends_sublist_last _ _ _ [] E2).
    apply (extends_sublist_new _ _ _ [] E1). apply sublist_nil_l. }
  assert (Hno : forall k, k ∉ ["limit"; "file_extensions"; "query"; "type"] ->
                          field k (check_type args q4) = None).
  { intros k Hk. apply field_None_keys. intros Hin. apply Hk.
    by apply (sublist_subseteq _ _ Hkeys). }
  assert (Hlisted : forall l x, listed l x = true -> exists s, x = JStr s /\ s ∈ l).
  { intros l [| | |s| |] Hx; try discriminate. exists s. split; [reflexivity|].
    simpl in Hx. apply existsb_exists in Hx as (y & Hy & Heq).
    apply String.eqb_eq in Heq as ->. by apply list_elem_of_In. }
  split.
  - later E9. later E8. later E7.
    unfold check_contentTypes in H6.
    destruct (contentTypes args) as [[| | | |items|]|]; try discriminate.
    + destruct (forallb _ items) eqn:Hall; [|discriminate]. injection H6 as <-.
      rewrite field_set_eq. split; [reflexivity|].
      intros v [= <-]. exists items. split; [reflexivity|].
      apply Forall_forall. intros x Hx. apply Hlisted.
      rewrite forallb_forall in Hall. apply Hall. by apply list_elem_of_In.
    + injection H6 as <-. split; [|intros v; discriminate].
      apply Hno. rewrite !elem_of_cons, elem_of_nil. intros Hin.
      repeat destruct Hin as [Hin|Hin]; (discriminate || done).
  - later E9. later E8.
    unfold check_scope in H7.
    destruct (scope args) as [[| | |s| |]|]; try discriminate.
    + destruct (listed validScopes (JStr s)) eqn:Hl; [|discriminate].
      simpl negb in H7. injection H7 as <-.
      rewrite field_set_eq. split; [reflexivity|].
      intros v [= <-]. destruct (Hlisted _ _ Hl) as (s' & [= <-] & Hin). eauto.
    + injection H7 as <-. split; [|intros v; discriminate].
      destruct E6 as [-> | [v ->]].
      * apply Hno. rewrite !elem_of_cons, elem_of_nil. intros Hin.
        repeat destruct Hin as [Hin|Hin]; (discriminate || done).
      * rewrite field_set_ne by discriminate.
        apply Hno. rewrite !elem_of_cons, elem_of_nil. intros Hin.
        repeat destruct Hin as [Hin|Hin]; (discriminate || done).
Qed.

(** A request is only issued when [sizeRange] is missing or a plain object
    whose bounds convert.  It carries [size_range] only when one of the
    converted bounds is truthy, as the two bounds joined by a comma with a
    falsy or missing bound left empty. *)
Theorem size_range_format (args : Args) (q : Fields) (ids : jsval) :
  collect args = (Ok q, ids) ->
  (sizeRange args = None /\ field "size_range" q = None) \/
  exists members lb ub,
    sizeRange args = Some (JObj members) /\
    bound members "lowerBound" "search:execute#sizeRange#lowerBound" = Ok lb /\
    bound members "upperBound" "search:execute#sizeRange#upperBound" = Ok ub /\
    field "size_range" q =
      if truthy lb || truthy ub
      then Some (JStr (String.append (or_empty lb) (String.append "," (or_empty ub))))
      else None.
Proof.
  intros Hc. stages Hc.
  assert (Hkeys : keys q7 `sublist_of`
            ["limit"; "file_extensions"; "query"; "type"; "content_types"; "scope"]).
  { apply (extends_sublist_new _ _ _
             ["limit"; "file_extensions"; "query"; "type"; "content_types"] E7).
    apply (extends_sublist_new _ _ _ ["limit"; "file_extensions"; "query"; "type"] E6).
    apply (extends_sublist_new _ _ _ ["limit"; "file_extensions"; "query"] E5).
    apply (extends_sublist_new _ _ _ ["limit"; "file_extensions"] E4).
    apply (extends_sublist_new _ _ _ ["limit"] E3).
    apply (extends_sublist_last _ _ _ [] E2).
    apply (extends_sublist_new _ _ _ [] E1). apply sublist_nil_l. }
  assert (Hno : field "size_range" q7 = None).
  { apply field_None_keys. intros Hin. apply (sublist_subseteq _ _ Hkeys) in Hin.
    rewrite !elem_of_cons, elem_of_nil in Hin.
    repeat destruct Hin as [Hin|Hin]; (discriminate || done). }
  later E9. unfold check_sizeRange, bind in H8.
  destruct (sizeRange args) as [[| | | | |members]|]; try discriminate.
  - right.
    destruct (bound members "lowerBound" _) as [lb|] eqn:Hlb; [|discriminate].
    destruct (bound members "upperBound" _) as [ub|] eqn:Hub; [|discriminate].
    exists members, lb, ub. split; [reflexivity|]. split; [exact Hlb|].
    split; [exact Hub|].
    destruct (truthy lb || truthy ub); injection H8 as <-;
      [apply field_set_eq | exact Hno].
  - left. injection H8 as <-. by split.
Qed.

(** ** The folder ids *)

(** What the [forEach] over the ids does from index [idx] on: it either
    converts every element, or stops at the first element that does not
    convert, with the elements before it converted and the others as they
    were. *)
Lemma convert_ids_spec idx items items' err :
  convert_ids idx items = (items', err) ->
  length items' = length items /\
  match err with
  | None =>
      forall k x, items !! k = Some x ->
        exists n, toNumberOrThrow x (id_label (idx + k)) = Ok n /\ items' !! k = Some n
  | Some e =>
      exists k x, items !! k = Some x /\
        toNumberOrThrow x (id_label (idx + k)) = Throws e /\
        (forall j y, (j < k)%nat -> items !! j = Some y ->
           exists n, toNumberOrThrow y (id_label (idx + j)) = Ok n /\
                     items' !! j = Some n) /\
        (forall j, (k <= j)%nat -> items' !! j = items !! j)
  end.
Proof.
  revert idx items' err. induction items as [|x rest IH]; intros idx items' err.
  - simpl. intros [= <- <-]. split; [reflexivity|]. intros k x Hk.
    by rewrite lookup_nil in Hk.
  - cbn [convert_ids].
    change (String.append "search:execute#ancestorFolderIds#"
              (NumberToString (Z.of_nat idx))) with (id_label idx).
    destruct (toNumberOrThrow x (id_label idx)) as [n|e] eqn:Hx.
    + destruct (convert_ids (S idx) rest) as [rest' err'] eqn:Hrest.
      intros [= <- <-]. destruct (IH _ _ _ Hrest) as [Hlen Hspec].
      split; [simpl; by rewrite Hlen|].
      destruct err' as [e|].
      * destruct Hspec as (k & y & Hk & Hy & Hbefore & Hafter).
        exists (S k), y. split; [exact Hk|].
        split; [by replace (idx + S k)%nat with (S idx + k)%nat by lia|].
        split.
        -- intros [|j] z Hj Hz.
           ++ simpl in Hz. injection Hz as <-. exists n.
              by rewrite Nat.add_0_r.
           ++ simpl in Hz. replace (idx + S j)%nat with (S idx + j)%nat by lia.
              apply Hbefore; [lia | exact Hz].
        -- intros [|j] Hj; [lia|]. simpl. apply Hafter. lia.
      * intros [|k] z Hz.
        -- simpl in Hz. injection Hz as <-. exists n. by rewrite Nat.add_0_r.
        -- simpl in Hz. replace (idx + S k)%nat with (S idx + k)%nat by lia.
           by apply Hspec.
    + intros [= <- <-]. split; [reflexivity|].
      exists O, x. split; [reflexivity|]. split; [by rewrite Nat.add_0_r|].
      split; [intros j y Hj; lia | reflexivity].
Qed.

(** When a request is issued for [ancestorFolderIds] given as an array, the
    caller's array holds, element by element, the conversions of what it
    held, and the request carries that array. *)
Theorem folder_ids_converted_in_place (args : Args) (q : Fields) (ids : jsval)
    (items : list json) :
  collect args = (Ok q, ids) ->
  ancestorFolderIds args = Some (JArr items) ->
  exists items',
    ids = Some (JArr items') /\
    field "ancestor_folder_ids" q = Some (JArr items') /\
    length items' = length items /\
    forall k x, items !! k = Some x ->
      exists n, toNumberOrThrow x (id_label k) = Ok n /\ items' !! k = Some n.
Proof.
  intros Hc Hids. stages Hc. unfold check_ancestorFolderIds in H9.
  rewrite Hids in H9.
  destruct (convert_ids 0 items) as [items' [e|]] eqn:Hconv; [discriminate|].
  injection H9 as <- <-. exists items'. split; [reflexivity|].
  split; [apply field_set_eq|].
  destruct (convert_ids_spec _ _ _ _ Hconv) as [Hlen Hspec].
  split; [exact Hlen | exact Hspec].
Qed.

(** When every other argument passes and the element at index [k] is the
    first id that does not convert, [execute] throws the error of that
    conversion and leaves the caller's array half converted: the elements
    before [k] are replaced by their conversions, the others are as they
    were. *)
Theorem folder_ids_half_converted (args : Args) (q0 : Fields) (items : list json)
    (k : nat) (x : json) (e : jserror) :
  front_checks args = Ok q0 ->
  ancestorFolderIds args = Some (JArr items) ->
  items !! k = Some x ->
  toNumberOrThrow x (id_label k) = Throws e ->
  (forall j y, (j < k)%nat -> items !! j = Some y ->
     exists n, toNumberOrThrow y (id_label j) = Ok n) ->
  exists items',
    execute args = (Throws e, Some (JArr items')) /\
    length items' = length items /\
    (forall j y, (j < k)%nat -> items !! j = Some y ->
       exists n, toNumberOrThrow y (id_label j) = Ok n /\ items' !! j = Some n) /\
    (forall j, (k <= j)%nat -> items' !! j = items !! j).
Proof.
  intros Hfront Hids Hk Hx Hbefore.
  unfold execute, collect. rewrite Hfront. unfold check_ancestorFolderIds.
  rewrite Hids.
  destruct (convert_ids 0 items) as [items' err] eqn:Hconv.
  destruct (convert_ids_spec _ _ _ _ Hconv) as [Hlen Hspec].
  destruct err as [e'|].
  - destruct Hspec as (k' & x' & Hk' & Hx' & Hb' & Ha'). simpl in Hx'.
    assert (k' = k) as ->.
    { destruct (Nat.lt_trichotomy k' k) as [Hlt | [-> | Hgt]]; [|reflexivity|].
      - destruct (Hbefore k' x' Hlt Hk') as [n Hn]. congruence.
      - destruct (Hb' k x Hgt Hk) as (n & Hn & _). simpl in Hn. congruence. }
    assert (x' = x) as -> by congruence.
    assert (e' = e) as -> by congruence.
    exists items'. split; [reflexivity|]. split; [exact Hlen|].
    split; [exact Hb' | exact Ha'].
  - destruct (Hspec k x Hk) as (n & Hn & _). simpl in Hn. congruence.
Qed.

End SearchCollection.

(** * The further properties on concrete runs *)

Import Demo.

(** ** The token module *)


Lemma missing_expires_in_disables_refresh_witness :
  let s := fst (step (H := platform) (config 4) (BackoffTimer 0) (fst (boot (config 4) ∅))) in
  let s' := fst (step (H := platform) (config 4)
                   (ExchangeReply 0 (ReplyBody (Json (JObj [("access_token", JStr "tok1")])))
                      1000) s) in
  expiresAt (token s') = Some NaN /\
  Token_refreshIfExpiring (config 4) 99999999 s' = (s', []).
Proof.
  cbv zeta.
  assert (Hi : calls (fst (step (H := platform) (config 4) (BackoffTimer 0)
                             (fst (boot (config 4) ∅)))) !! 0%nat =
               Some {| fibonacciBackoff := {| backoffNumber_ := 1; maxNumberOfRetry_ := 4 |};
                       progress := RequestPending "k.#"; caller := Init |})
    by (vm_compute; reflexivity).
  destruct (missing_expires_in_disables_refresh (H := platform) (config 4) 0 _ "k.#" _
              [("access_token", JStr "tok1")] 1000
              Hi eq_refl eq_refl eq_refl) as (_ & _ & Hnan & Hnever).
  split; [exact Hnan|]. by apply Hnever.
Defined.


Lemma payload_only_jti_written_witness :
  "sub" <> "jti" /\
  payload (fst (run (H := platform) (config 4)
                  (attempts 0 [(foo_bar, 10); (grant "tok1" 3600, 40)])
                  (fst (boot (config 4) {["sub" := JStr "user"]})))) !! "sub" =
  ({["sub" := JStr "user"]} : gmap string json) !! "sub".
Proof.
  assert (Hne : "sub" <> "jti") by discriminate.
  split; [exact Hne|].
  exact (payload_only_jti_written (H := platform) (config 4) {["sub" := JStr "user"]}
           (attempts 0 [(foo_bar, 10); (grant "tok1" 3600, 40)]) "sub" Hne).
Defined.

Lemma api_token_always_set_witness :
  reachable (H := platform) (config 4) granted_state /\
  refreshTimer granted_state = true /\
  (exists t, settled_result 0 granted_state = Some (Resolved t)) /\
  exists v, Token_get granted_state = Resolved v /\ truthy v = true.
Proof.
  split; [exact granted_reachable|]. split; [reflexivity|].
  exact (api_token_always_set (H := platform) (config 4) granted_state
           granted_reachable eq_refl).
Defined.

Lemma failed_startup_is_final_witness :
  let s := fst (run (H := platform) (config 1) (attempts 0 [(foo_bar, 1000)])
                  (fst (boot (config 1) ∅))) in
  let err := Error "Unable to get token after 10 tries" in
  let res := run (H := platform) (config 1)
               [PromiseHandlers 0 1001; CallSet; TimerFires 61001; BackoffTimer 0;
                CallRevoke] s in
  reachable (H := platform) (config 1) s /\
  settled_result 0 s = Some (Rejected err) /\
  refreshTimer (fst res) = false /\
  length (calls (fst res)) = 1%nat /\
  settled_result 0 (fst res) = Some (Rejected err) /\
  Token_get (fst res) = Resolved None /\
  exchange_posts (snd res) = [] /\
  Forall (fun o => o = ModuleSettled (Rejected err)) (snd res).
Proof.
  cbv zeta.
  assert (Hreach : reachable (H := platform) (config 1)
                     (fst (run (H := platform) (config 1) (attempts 0 [(foo_bar, 1000)])
                             (fst (boot (config 1) ∅)))))
    by apply reachable_run, reachable_boot.
  assert (Hrej : settled_result 0
                   (fst (run (H := platform) (config 1) (attempts 0 [(foo_bar, 1000)])
                           (fst (boot (config 1) ∅)))) =
                 Some (Rejected (Error "Unable to get token after 10 tries")))
    by (vm_compute; reflexivity).
  split; [exact Hreach|]. split; [exact Hrej|].
  exact (failed_startup_is_final (H := platform) (config 1) _ _
           [PromiseHandlers 0 1001; CallSet; TimerFires 61001; BackoffTimer 0; CallRevoke]
           Hreach Hrej).
Defined.

Lemma null_body_wedges_refresh_witness :
  let s := fst (step (H := platform) (config 4) (BackoffTimer 1) refreshing_state) in
  let first := step (H := platform) (config 4)
                 (ExchangeReply 1 (ReplyBody (Json JNull)) 3596500) s in
  let s' := fst (run (H := platform) (config 4)
                   [PromiseHandlers 1 3596501; BackoffTimer 1; TimerFires 3656001]
                   (fst first)) in
  reachable (H := platform) (config 4) s /\
  (exists err, snd first = [UncaughtException 1 err]) /\
  isRefreshing s' = true /\
  step (H := platform) (config 4) (TimerFires 9999999) s' = (s', []).
Proof.
  cbv zeta.
  assert (Hreach : reachable (H := platform) (config 4)
                     (fst (step (H := platform) (config 4) (BackoffTimer 1)
                             refreshing_state)))
    by apply reachable_step, reachable_run, granted_reachable.
  assert (Hi : calls (fst (step (H := platform) (config 4) (BackoffTimer 1)
                             refreshing_state)) !! 1%nat =
               Some {| fibonacciBackoff := {| backoffNumber_ := 1; maxNumberOfRetry_ := 4 |};
                       progress := RequestPending "k.|#"; caller := Refresh |})
    by (vm_compute; reflexivity).
  destruct (null_body_wedges_refresh (H := platform) (config 4) 1 _ "k.|#" _ 3596500
              [PromiseHandlers 1 3596501; BackoffTimer 1; TimerFires 3656001]
              Hreach Hi eq_refl eq_refl)
    as (Hobs & _ & _ & Hup & Hnever).
  split; [exact Hreach|]. split; [exact Hobs|]. split; [exact Hup|].
  exact (proj2 (Hnever 9999999)).
Defined.

Lemma sign_failure_hangs_startup_witness :
  let s := fst (boot (config 4) ∅) in
  let err := Foreign "jsonwebtoken" "unreadable private key" in
  let first := step (H := unreadable_key_platform) (config 4) (BackoffTimer 0) s in
  fresh_jwt (H := unreadable_key_platform) (config 4) s = Throws err /\
  snd first = [UncaughtException 0 err] /\
  settled_result 0 (fst first) = None /\
  refreshTimer (fst first) = false /\
  run (H := unreadable_key_platform) (config 4)
    [BackoffTimer 0; PromiseHandlers 0 5; CallSet; TimerFires 60000] (fst first) =
    (fst first, []).
Proof.
  cbv zeta.
  assert (Hi : calls (fst (boot (config 4) ∅)) !! 0%nat =
               Some {| fibonacciBackoff := {| backoffNumber_ := 0; maxNumberOfRetry_ := 4 |};
                       progress := TimerPending; caller := Init |})
    by (vm_compute; reflexivity).
  assert (Hsign : fresh_jwt (H := unreadable_key_platform) (config 4)
                    (fst (boot (config 4) ∅)) =
                  Throws (Foreign "jsonwebtoken" "unreadable private key"))
    by reflexivity.
  split; [exact Hsign|].
  exact (sign_failure_hangs_startup (H := unreadable_key_platform) (config 4) _ _ _
           [BackoffTimer 0; PromiseHandlers 0 5; CallSet; TimerFires 60000]
           (reachable_boot (H := unreadable_key_platform) (config 4) ∅)
           Hi eq_refl Hsign).
Defined.

(** ** The search collection *)

Lemma execute_url_shape_witness :
  Search.execute (H := Search.demo_env) Search.sample_args =
    (Ok "https://api.box.com/2.0/search?limit=20&file_extensions=pdf,doc&query=annual report&type=file&content_types=name,tags&scope=user_content&size_range=,7&ancestor_folder_ids=1,7",
     Some (JArr [JNum 1; JNum 7])) /\
  exists q,
    Search.keys q `sublist_of` Search.parameter_order /\
    "query" ∈ Search.keys q /\ "offset" ∉ Search.keys q.
Proof.
  assert (Hrun : Search.execute (H := Search.demo_env) Search.sample_args =
            (Ok "https://api.box.com/2.0/search?limit=20&file_extensions=pdf,doc&query=annual report&type=file&content_types=name,tags&scope=user_content&size_range=,7&ancestor_folder_ids=1,7",
             Some (JArr [JNum 1; JNum 7])))
    by (vm_compute; reflexivity).
  split; [exact Hrun|].
  destruct (execute_url_shape (H := Search.demo_env) Search.sample_args _ _ Hrun)
    as (q & _ & _ & Hsub & _ & Hquery & Hoffset).
  exists q. split; [exact Hsub|]. split; [exact Hquery | exact Hoffset].
Defined.

Lemma offset_overrides_limit_witness :
  exists q ids,
    Search.collect (H := Search.demo_env) Search.sample_args = (Ok q, ids) /\
    Search.limit Search.sample_args = Some (JNum 5) /\
    Search.offset Search.sample_args = Some (JNum 20) /\
    Search.field "limit" q = Some (JNum 20).
Proof.
  assert (Hrun : Search.collect (H := Search.demo_env) Search.sample_args =
            (Ok [("limit", JNum 20);
                 ("file_extensions", JArr [JStr "pdf"; JStr "doc"]);
                 ("query", JStr "annual report"); ("type", JStr "file");
                 ("content_types", JArr [JStr "name"; JStr "tags"]);
                 ("scope", JStr "user_content"); ("size_range", JStr ",7");
                 ("ancestor_folder_ids", JArr [JNum 1; JNum 7])],
             Some (JArr [JNum 1; JNum 7])))
    by (vm_compute; reflexivity).
  eexists _, _. split; [exact Hrun|]. split; [reflexivity|]. split; [reflexivity|].
  destruct (offset_overrides_limit (H := Search.demo_env) _ _ _ Hrun) as [Hoffset _].
  destruct (Hoffset eq_refl) as (v & Hv & Hfield).
  injection Hv as <-. exact Hfield.
Defined.


Lemma blank_query_accepted_witness :
  (1 < String.length "   ")%nat /\ Search.all_space "   " = true /\
  Search.execute (H := Search.demo_env) (Search.only_query "   ") =
    (Ok "https://api.box.com/2.0/search?query=", None).
Proof.
  assert (Hlen : (1 < String.length "   ")%nat) by (simpl; lia).
  split; [exact Hlen|]. split; [reflexivity|].
  exact (blank_query_accepted (H := Search.demo_env) "   " Hlen eq_refl).
Defined.

Lemma short_query_rejected_witness :
  (forall s, Search.query (Search.only_query "a") = Some (JStr s) ->
             (String.length s <= 1)%nat) /\
  Search.execute (H := Search.demo_env) (Search.only_query "a") =
    (Throws (Error "search:execute#query is not a String. Received -> a"), None).
Proof.
  assert (Hshort : forall s, Search.query (Search.only_query "a") = Some (JStr s) ->
                             (String.length s <= 1)%nat).
  { intros s [= <-]. simpl. lia. }
  split; [exact Hshort|].
  exact (short_query_rejected (H := Search.demo_env) (Search.only_query "a") [] []
           eq_refl eq_refl Hshort).
Defined.

Lemma unknown_type_ignored_witness :
  (forall t, Search.type (Search.of_type (JStr "image")) = Some t ->
             Search.listed Search.validTypes t = false) /\
  Search.execute (H := Search.demo_env) (Search.of_type (JStr "image")) =
  Search.execute (H := Search.demo_env) (Search.without_type (Search.of_type (JStr "image"))).
Proof.
  assert (Hunknown : forall t, Search.type (Search.of_type (JStr "image")) = Some t ->
                               Search.listed Search.validTypes t = false).
  { intros t [= <-]. reflexivity. }
  split; [exact Hunknown|].
  exact (unknown_type_ignored (H := Search.demo_env) _ Hunknown).
Defined.

Lemma accepted_args_are_valid_witness :
  exists q ids,
    Search.collect (H := Search.demo_env) Search.sample_args = (Ok q, ids) /\
    Search.field "content_types" q = Some (JArr [JStr "name"; JStr "tags"]) /\
    Search.field "scope" q = Some (JStr "user_content").
Proof.
  assert (Hrun : Search.collect (H := Search.demo_env) Search.sample_args =
            (Ok [("limit", JNum 20);
                 ("file_extensions", JArr [JStr "pdf"; JStr "doc"]);
                 ("query", JStr "annual report"); ("type", JStr "file");
                 ("content_types", JArr [JStr "name"; JStr "tags"]);
                 ("scope", JStr "user_content"); ("size_range", JStr ",7");
                 ("ancestor_folder_ids", JArr [JNum 1; JNum 7])],
             Some (JArr [JNum 1; JNum 7])))
    by (vm_compute; reflexivity).
  destruct (accepted_args_are_valid (H := Search.demo_env) _ _ _ Hrun)
    as [[Htypes _] [Hscope _]].
  eexists _, _. split; [exact Hrun|]. split; [exact Htypes | exact Hscope].
Defined.

Lemma size_range_format_witness :
  exists q ids,
    Search.collect (H := Search.demo_env) Search.sample_args = (Ok q, ids) /\
    ((Search.sizeRange Search.sample_args = None /\ Search.field "size_range" q = None) \/
     exists members lb ub,
       Search.sizeRange Search.sample_args = Some (JObj members) /\
       Search.bound (H := Search.demo_env) members "lowerBound"
         "search:execute#sizeRange#lowerBound" = Ok lb /\
       Search.bound (H := Search.demo_env) members "upperBound"
         "search:execute#sizeRange#upperBound" = Ok ub /\
       Search.field "size_range" q =
         if truthy lb || truthy ub
         then Some (JStr (String.append (Search.or_empty (H := Search.demo_env) lb)
                            (String.append "," (Search.or_empty (H := Search.demo_env) ub))))
         else None).
Proof.
  assert (Hrun : Search.collect (H := Search.demo_env) Search.sample_args =
            (Ok [("limit", JNum 20);
                 ("file_extensions", JArr [JStr "pdf"; JStr "doc"]);
                 ("query", JStr "annual report"); ("type", JStr "file");
                 ("content_types", JArr [JStr "name"; JStr "tags"]);
                 ("scope", JStr "user_content"); ("size_range", JStr ",7");
                 ("ancestor_folder_ids", JArr [JNum 1; JNum 7])],
             Some (JArr [JNum 1; JNum 7])))
    by (vm_compute; reflexivity).
  eexists _, _. split; [exact Hrun|].
  exact (size_range_format (H := Search.demo_env) _ _ _ Hrun).
Defined.

Lemma folder_ids_converted_in_place_witness :
  exists q ids items',
    Search.collect (H := Search.demo_env) Search.sample_args = (Ok q, ids) /\
    Search.ancestorFolderIds Search.sample_args = Some (JArr [JNum 1; JStr "7"]) /\
    ids = Some (JArr items') /\
    Search.field "ancestor_folder_ids" q = Some (JArr items') /\
    length items' = 2%nat.
Proof.
  assert (Hrun : Search.collect (H := Search.demo_env) Search.sample_args =
            (Ok [("limit", JNum 20);
                 ("file_extensions", JArr [JStr "pdf"; JStr "doc"]);
                 ("query", JStr "annual report"); ("type", JStr "file");
                 ("content_types", JArr [JStr "name"; JStr "tags"]);
                 ("scope", JStr "user_content"); ("size_range", JStr ",7");
                 ("ancestor_folder_ids", JArr [JNum 1; JNum 7])],
             Some (JArr [JNum 1; JNum 7])))
    by (vm_compute; reflexivity).
  destruct (folder_ids_converted_in_place (H := Search.demo_env) _ _ _
              [JNum 1; JStr "7"] Hrun eq_refl)
    as (items' & Hids & Hfield & Hlen & _).
  eexists _, _, items'. split; [exact Hrun|]. split; [reflexivity|].
  split; [exact Hids|]. split; [exact Hfield | exact Hlen].
Defined.

Lemma folder_ids_half_converted_witness :
  let ids := [JStr "7"; JStr "x"; JStr "7"] in
  let e := Error "search:execute#ancestorFolderIds#1 is not a number" in
  Search.front_checks (H := Search.demo_env) (Search.in_folders ids) =
    Ok [("query", JStr "report")] /\
  Search.toNumberOrThrow (Env := Search.demo_env) (JStr "x")
    (Search.id_label (H := Search.demo_env) 1) = Throws e /\
  exists items',
    Search.execute (H := Search.demo_env) (Search.in_folders ids) =
      (Throws e, Some (JArr items')) /\
    length items' = 3%nat /\
    items' !! 2%nat = Some (JStr "7").
Proof.
  cbv zeta.
  assert (Hfront : Search.front_checks (H := Search.demo_env)
                     (Search.in_folders [JStr "7"; JStr "x"; JStr "7"]) =
                   Ok [("query", JStr "report")]) by (vm_compute; reflexivity).
  assert (Hx : Search.toNumberOrThrow (Env := Search.demo_env) (JStr "x")
                 (Search.id_label (H := Search.demo_env) 1) =
               Throws (Error "search:execute#ancestorFolderIds#1 is not a number"))
    by (vm_compute; reflexivity).
  split; [exact Hfront|]. split; [exact Hx|].
  assert (Hbefore : forall j y, (j < 1)%nat ->
            [JStr "7"; JStr "x"; JStr "7"] !! j = Some y ->
            exists n, Search.toNumberOrThrow (Env := Search.demo_env) y
                        (Search.id_label (H := Search.demo_env) j) = Ok n).
  { intros [|j] y Hj; [|lia]. intros [= <-]. exists (JNum 7). reflexivity. }
  destruct (folder_ids_half_converted (H := Search.demo_env)
              (Search.in_folders [JStr "7"; JStr "x"; JStr "7"]) _
              [JStr "7"; JStr "x"; JStr "7"] 1 (JStr "x") _
              Hfront eq_refl eq_refl Hx Hbefore)
    as (items' & Hrun & Hlen & _ & Hafter).
  exists items'. split; [exact Hrun|]. split; [exact Hlen|].
  exact (Hafter 2%nat ltac:(lia)).
Defined.
